(** * Xin: the AQW username checker (main.js, batch variant with history filter)

    A shallow embedding of the coordinator ([runMain]) and of the worker
    ([workerCheckAvailability] and the worker-thread entry block), followed
    by the properties of the dispatch-and-aggregation core. The two other
    variants of the program, [runMain] of main.js without the history
    filter and the earlier [run] with one worker and one browser per
    identifier, are embedded after it, in [MainJs] and [Legacy].

    Conventions of the embedding.
    - A JavaScript string is the list of its UTF-16 code units ([jstring]).
      A file is represented by the text that [fs.readFile(_, 'utf-8')]
      returns for it; what [fs.appendFile] adds is text of the same kind.
    - A [Set] is the list of its elements in insertion order.
    - A number is [NaN], an infinity, or an integer that a double holds:
      [parseInt] rounds what it reads to the nearest double, and the
      counter of the spawning loop stops growing at 2^53, so that the
      loop does not come to an end for a count beyond ([loop_ends]).
    - What the program cannot control (the remote pages, the browser
      session, how a worker thread ends, the order in which worker events
      reach the main thread) is an explicit parameter of the run. *)

From Stdlib Require Import ZArith NArith String Ascii Lia.
From stdpp Require Import base list.

Local Open Scope nat_scope.

(** ** Strings *)

Module JS.

Definition char := N.
Definition jstring := list char.

Definition of_ascii (s : string) : jstring :=
  map N_of_ascii (list_ascii_of_string s).

Definition LF : char := 10%N.
Definition CR : char := 13%N.

(** WhiteSpace and LineTerminator of ECMAScript, the characters that
    [String.prototype.trim] and [parseInt] strip. *)
Definition is_ws (c : char) : bool :=
  ((9 <=? c) && (c <=? 13) || (c =? 32) || (c =? 160) || (c =? 5760)
   || (8192 <=? c) && (c <=? 8202) || (c =? 8232) || (c =? 8233)
   || (c =? 8239) || (c =? 8287) || (c =? 12288) || (c =? 65279))%N.

Fixpoint trimStart (s : jstring) : jstring :=
  match s with
  | c :: s' => if is_ws c then trimStart s' else s
  | [] => []
  end.

Definition trimEnd (s : jstring) : jstring := rev (trimStart (rev s)).

Definition trim (s : jstring) : jstring := trimEnd (trimStart s).

(** Prepend a character to the first piece of a split. *)
Definition push_front (c : char) (pieces : list jstring) : list jstring :=
  match pieces with
  | p :: ps => (c :: p) :: ps
  | [] => [[c]]
  end.

(** [s.split(/\r?\n/)]: a separator is a line feed, together with the
    carriage return right before it when there is one. *)
Fixpoint split_lines (s : jstring) : list jstring :=
  match s with
  | [] => [[]]
  | c :: s' =>
      if (c =? LF)%N then [] :: split_lines s'
      else
        match s' with
        | c' :: s'' =>
            if ((c =? CR) && (c' =? LF))%N then [] :: split_lines s''
            else push_front c (split_lines s')
        | [] => [[c]]
        end
  end.

(** [arr.join('\n')] *)
Fixpoint join_lines (l : list jstring) : jstring :=
  match l with
  | [] => []
  | [x] => x
  | x :: l' => x ++ LF :: join_lines l'
  end.

(** ** Sets, in insertion order *)

Definition has (s : list jstring) (x : jstring) : bool := bool_decide (x ∈ s).

Definition add (s : list jstring) (x : jstring) : list jstring :=
  if has s x then s else s ++ [x].

(** [new Set(iterable)] *)
Definition Set_of (l : list jstring) : list jstring := foldl add [] l.

(** ** Numbers *)

Inductive JSNum := NaN | Num (z : Z) | Infinity (negative : bool).

Definition is_digit (c : char) : bool := ((48 <=? c) && (c <=? 57))%N.

(** The value of the longest prefix of decimal digits, if it is not empty. *)
Fixpoint digits (s : jstring) (acc : option Z) : option Z :=
  match s with
  | c :: s' =>
      if is_digit c
      then digits s' (Some (10 * default 0%Z acc + (Z.of_N c - 48))%Z)
      else acc
  | [] => acc
  end.

(** The integer with a significand of 53 bits nearest to [m >= 0], ties
    to the even significand. *)
Definition round_to_double (m : Z) : Z :=
  if (m <? 2 ^ 53)%Z then m
  else
    let e := (Z.log2 m - 52)%Z in
    let q := (m / 2 ^ e)%Z in
    let r := (m mod 2 ^ e)%Z in
    let half := (2 ^ (e - 1))%Z in
    let q' := if (half <? r)%Z || ((r =? half)%Z && Z.odd q)
              then (q + 1)%Z else q in
    (q' * 2 ^ e)%Z.

(** The Number value for the integer [z]: infinite from 2^1024 on.
    ECMAScript lets [parseInt] neglect the digits after the 20th; Node
    rounds the number as it is written. *)
Definition to_double (z : Z) : JSNum :=
  let m := round_to_double (Z.abs z) in
  if (2 ^ 1024 <=? m)%Z then Infinity (z <? 0)%Z else Num (Z.sgn z * m).

(** [parseInt(s, 10)] *)
Definition parseInt10 (s : jstring) : JSNum :=
  let t := trimStart s in
  let '(sign, body) :=
    match t with
    | c :: t' =>
        if (c =? 45)%N then ((-1)%Z, t')
        else if (c =? 43)%N then (1%Z, t')
        else (1%Z, t)
    | [] => (1%Z, t)
    end in
  match digits body None with
  | Some v => to_double (sign * v)
  | None => NaN
  end.

(** Whether [for (let i = 0; i < n; i++)] comes to an end: [i + 1] is
    [i] again at 2^53, where the counter stays. *)
Definition loop_ends (n : JSNum) : bool :=
  match n with
  | NaN => true
  | Num z => (z <=? 2 ^ 53)%Z
  | Infinity negative => negative
  end.

End JS.
Export JS.

(** ** The worker thread *)

Module Worker.

Definition USERNAME_NOT_FOUND_MESSAGE : jstring := of_ascii "Not Found!".

(** What one navigation to the character page of an identifier ends in. *)
Inductive PageOutcome :=
| NavigationFails
    (* page.goto rejects: navigation error, or 30 s without network idle *)
| EvaluateFails
    (* page.evaluate rejects *)
| Loaded (serveralert : option jstring).
    (* the page is there; the textContent of the node selected by
       #serveralert, None when querySelector returns null *)

(** The session a worker gets from the shared browser. *)
Record Session := {
  connect_ok : bool;                      (* puppeteer.connect resolves *)
  newPage_ok : bool;                      (* browser.newPage resolves *)
  goto : nat -> jstring -> PageOutcome;   (* the i-th navigation of the chunk *)
  close_ok : bool;                        (* page.close resolves *)
  disconnect_ok : bool                    (* browser.disconnect resolves *)
}.

(** The values the page function can return. *)
Inductive JSVal := JNull | JBool (b : bool).

Definition truthy (v : JSVal) : bool :=
  match v with JNull => false | JBool b => b end.

(** [serverAlert && serverAlert.textContent.trim() === msg] *)
Definition pageFunction (msg : jstring) (serverAlert : option jstring) : JSVal :=
  match serverAlert with
  | None => JNull
  | Some textContent => JBool (bool_decide (trim textContent = msg))
  end.

(** *** Exceptions over the worker's variables *)

Record Vars := {
  browser : bool;                      (* [browser] has been assigned *)
  availableUsernames : list jstring;
  visited : list jstring               (* identifiers navigated to, in order *)
}.

Inductive result (A : Type) := Ok (a : A) | Throw.
Arguments Ok {A} a.
Arguments Throw {A}.

Definition M (A : Type) := Vars -> Vars * result A.

Definition ret {A} (a : A) : M A := fun v => (v, Ok a).
Definition throw {A} : M A := fun v => (v, Throw).
Definition bind {A B} (m : M A) (k : A -> M B) : M B :=
  fun v => match m v with
           | (v', Ok a) => k a v'
           | (v', Throw) => (v', Throw)
           end.
Definition try_catch {A} (body : M A) (handler : M A) : M A :=
  fun v => match body v with
           | (v', Ok a) => (v', Ok a)
           | (v', Throw) => handler v'
           end.
(** [try { body } finally { fin }]: an exception of [fin] replaces the
    completion of [body]. *)
Definition try_finally {A} (body : M A) (fin : M unit) : M A :=
  fun v => match body v with
           | (v', r) => match fin v' with
                        | (v'', Ok _) => (v'', r)
                        | (v'', Throw) => (v'', Throw)
                        end
           end.

Notation "x <- m ;; k" := (bind m (fun x => k))
  (at level 62, m at next level, right associativity).
Notation "m ;;; k" := (bind m (fun _ => k))
  (at level 62, right associativity).

Definition guard (ok : bool) : M unit := if ok then ret tt else throw.

Definition set_browser : M unit :=
  fun v => ({| browser := true; availableUsernames := availableUsernames v;
               visited := visited v |}, Ok tt).
Definition push (u : jstring) : M unit :=
  fun v => ({| browser := browser v;
               availableUsernames := availableUsernames v ++ [u];
               visited := visited v |}, Ok tt).
Definition log_visit (u : jstring) : M unit :=
  fun v => ({| browser := browser v; availableUsernames := availableUsernames v;
               visited := visited v ++ [u] |}, Ok tt).
Definition get_browser : M bool := fun v => (v, Ok (browser v)).
Definition get_available : M (list jstring) :=
  fun v => (v, Ok (availableUsernames v)).

(** [await page.goto(...); await page.evaluate(...)] on a page that ends
    in [o]: the value of [isAvailable], or the exception. *)
Definition checkPage (o : PageOutcome) : result JSVal :=
  match o with
  | NavigationFails => Throw
  | EvaluateFails => Throw
  | Loaded serverAlert => Ok (pageFunction USERNAME_NOT_FOUND_MESSAGE serverAlert)
  end.

Definition lift {A} (r : result A) : M A := fun v => (v, r).

Definition probe (s : Session) (i : nat) (username : jstring) : M JSVal :=
  log_visit username ;;; lift (checkPage (goto s i username)).

(** The body of [for (const username of usernamesToCheck)]. *)
Definition iteration (s : Session) (i : nat) (username : jstring) : M unit :=
  try_catch
    (isAvailable <- probe s i username ;;
     if truthy isAvailable then push username else ret tt)
    (ret tt).

Fixpoint for_of (s : Session) (i : nat) (usernamesToCheck : list jstring) : M unit :=
  match usernamesToCheck with
  | [] => ret tt
  | username :: rest => iteration s i username ;;; for_of s (S i) rest
  end.

(** The statements of the outer [try] block. *)
Definition tryBlock (s : Session) (usernamesToCheck : list jstring) : M unit :=
  guard (connect_ok s) ;;; set_browser ;;;
  guard (newPage_ok s) ;;;
  for_of s 0 usernamesToCheck ;;;
  guard (close_ok s).

Definition workerCheckAvailability (s : Session) (usernamesToCheck : list jstring)
  : M (list jstring) :=
  try_finally
    (try_catch (tryBlock s usernamesToCheck) (ret tt))
    (b <- get_browser ;; if b then guard (disconnect_ok s) else ret tt) ;;;
  get_available.

Definition init_vars : Vars :=
  {| browser := false; availableUsernames := []; visited := [] |}.

(** What the parent thread can observe of a worker. *)
Inductive WorkerEvent :=
| Message (availableUsernames : list jstring)
| Error
| Exit (code : Z).

(** The [if (!isMainThread)] block: the report is posted from [then], an
    empty one from [catch]; the thread then ends by itself. *)
Definition workerThread (s : Session) (usernamesToCheck : list jstring)
  : list WorkerEvent :=
  match workerCheckAvailability s usernamesToCheck init_vars with
  | (_, Ok availableUsernames) => [Message availableUsernames; Exit 0]
  | (_, Throw) => [Message []; Exit 0]
  end.

(** The identifiers a worker navigates to. *)
Definition navigations (s : Session) (usernamesToCheck : list jstring)
  : list jstring :=
  visited (fst (workerCheckAvailability s usernamesToCheck init_vars)).

(** The three classifications of the Check Protocol, read off one
    iteration of the loop. *)
Inductive Classification := available | unavailable | indeterminate.

#[global] Instance Classification_eq_dec : EqDecision Classification.
Proof. solve_decision. Defined.

Definition classify (o : PageOutcome) : Classification :=
  match checkPage o with
  | Ok isAvailable => if truthy isAvailable then available else unavailable
  | Throw => indeterminate
  end.

End Worker.
Export Worker.

(** ** The main thread *)

Module Coordinator.

(** [available_usernames.txt] *)
Inductive RecordFile :=
| NoFile                                     (* reading gives ENOENT *)
| File (content : jstring) (readable : bool).

(** How a spawned worker thread ends. *)
Inductive Fate :=
| Completes        (* runs the worker block to its end *)
| Crashes          (* an uncaught exception: 'error', then 'exit' with code 1 *)
| Killed (code : Z).  (* ends without having posted anything *)

(** What a run meets. The input file and the record are taken to be two
    different files. *)
Record Env := {
  args : list jstring;                   (* process.argv.slice(2) *)
  fs_read : jstring -> option jstring;   (* the input file; None: the read rejects *)
  record : RecordFile;
  append_ok : bool;                      (* fs.appendFile resolves *)
  cpus : nat;                            (* os.cpus().length *)
  launch_ok : bool;                      (* puppeteer.launch resolves *)
  browser_close_ok : bool;               (* browser.close resolves *)
  session : nat -> Session;              (* by workerId *)
  fate : nat -> Fate;                    (* by workerId *)
  order : list nat                       (* whose next event the main thread
                                            handles, by position in
                                            workerPromises *)
}.

(** [text.split(/\r?\n/).map(u => u.trim()).filter(Boolean)] *)
Definition readUsernames (text : jstring) : list jstring :=
  filter (fun u => u <> []) (map trim (split_lines text)).

(** The [forEach] that fills [existingAvailableUsernames]. *)
Definition addTrimmed (set : list jstring) (u : jstring) : list jstring :=
  let trimmed := trim u in
  if bool_decide (trimmed <> []) then add set trimmed else set.

Definition loadExisting (r : RecordFile) : list jstring :=
  match r with
  | File existingContent true => foldl addTrimmed [] (split_lines existingContent)
  | File _ false => []
  | NoFile => []
  end.

(** [allUsernamesFromFile.filter(u => !existingAvailableUsernames.has(u))] *)
Definition usernamesToCheck (allUsernamesFromFile existing : list jstring)
  : list jstring :=
  filter (fun u => negb (has existing u)) allUsernamesFromFile.

(** A string is truthy when it is not empty. *)
Definition nonempty (s : jstring) : bool :=
  match s with [] => false | _ :: _ => true end.

(** [process.argv[3] ? parseInt(process.argv[3], 10) : os.cpus().length] *)
Definition numWorkers (e : Env) : JSNum :=
  match args e !! 1 with
  | Some arg => if nonempty arg then parseInt10 arg else Num (Z.of_nat (cpus e))
  | None => Num (Z.of_nat (cpus e))
  end.

(** [arr.slice(start, end)] for [0 <= start <= end] *)
Definition slice {A} (l : list A) (start end_ : nat) : list A :=
  take (end_ - start) (drop start l).

(** [Math.ceil(total / n)] for [n > 0] *)
Definition ceil_div (total : nat) (n : Z) : nat :=
  Z.to_nat ((Z.of_nat total + n - 1) / n).

(** The body of the distribution loop at [i]: the worker spawned there,
    as (workerId, chunk), if any. *)
Definition spawn_at (usernamesPerWorker : nat) (toCheck : list jstring) (i : nat)
  : list (nat * list jstring) :=
  let start := i * usernamesPerWorker in
  let end_ := start + usernamesPerWorker in
  let usernamesChunk := slice toCheck start end_ in
  if 0 <? length usernamesChunk then [(i + 1, usernamesChunk)] else [].

(** [for (let i = 0; i < numWorkers; i++)]: no iteration when
    [numWorkers] is [NaN] or not positive; every chunk is empty when it
    is infinite, [usernamesPerWorker] being 0 then. These are the workers
    that the loop spawns, also when it does not come to an end. *)
Definition distribute (n : JSNum) (toCheck : list jstring)
  : list (nat * list jstring) :=
  match n with
  | NaN => []
  | Num z =>
      if (0 <? z)%Z
      then let usernamesPerWorker := ceil_div (length toCheck) z in
           concat (map (spawn_at usernamesPerWorker toCheck) (seq 0 (Z.to_nat z)))
      else []
  | Infinity _ => []
  end.

(** *** The join *)

Inductive PState := Pending | Resolved | Rejected.

#[global] Instance PState_eq_dec : EqDecision PState.
Proof. solve_decision. Defined.

Definition settle (to : PState) (p : PState) : PState :=
  match p with Pending => to | _ => p end.

Record JoinState := {
  queues : list (list WorkerEvent);    (* events each worker has yet to emit *)
  workerPromises : list PState;
  newlyAvailableUsernames : list jstring
}.

(** The three listeners installed on a worker. *)
Definition handle (p : nat) (ev : WorkerEvent) (st : JoinState) : JoinState :=
  match ev with
  | Message found =>
      {| queues := queues st;
         workerPromises := alter (settle Resolved) p (workerPromises st);
         newlyAvailableUsernames := newlyAvailableUsernames st ++ found |}
  | Error =>
      {| queues := queues st;
         workerPromises := alter (settle Rejected) p (workerPromises st);
         newlyAvailableUsernames := newlyAvailableUsernames st |}
  | Exit _ =>
      {| queues := queues st;
         workerPromises := alter (settle Resolved) p (workerPromises st);
         newlyAvailableUsernames := newlyAvailableUsernames st |}
  end.

(** The main thread takes the next event of worker [p], if it has one. *)
Definition deliver (p : nat) (st : JoinState) : JoinState :=
  match queues st !! p with
  | Some (ev :: q) =>
      handle p ev {| queues := <[p := q]> (queues st);
                     workerPromises := workerPromises st;
                     newlyAvailableUsernames := newlyAvailableUsernames st |}
  | Some [] => st
  | None => st
  end.

(** [Promise.all]: rejected as soon as one promise is, fulfilled when all
    are resolved. *)
Definition all_state (ps : list PState) : PState :=
  if bool_decide (Rejected ∈ ps) then Rejected
  else if bool_decide (Pending ∈ ps) then Pending
  else Resolved.

Inductive Joined :=
| Fulfilled (st : JoinState)   (* execution continues after the await *)
| Failed (st : JoinState)      (* the await throws into the outer catch *)
| Waiting (st : JoinState).    (* no more events: the await never returns *)

Fixpoint await_all (order : list nat) (st : JoinState) : Joined :=
  match all_state (workerPromises st) with
  | Resolved => Fulfilled st
  | Rejected => Failed st
  | Pending =>
      match order with
      | p :: order' => await_all order' (deliver p st)
      | [] => Waiting st
      end
  end.

Definition events (e : Env) (w : nat * list jstring) : list WorkerEvent :=
  match fate e (fst w) with
  | Completes => workerThread (session e (fst w)) (snd w)
  | Crashes => [Error; Exit 1]
  | Killed code => [Exit code]
  end.

Definition start (e : Env) (spawned : list (nat * list jstring)) : JoinState :=
  {| queues := map (events e) spawned;
     workerPromises := map (fun _ => Pending) spawned;
     newlyAvailableUsernames := [] |}.

(** *** The run *)

Inductive Termination :=
| Exited (code : Z)
| Hangs.

Record Outcome := {
  termination : Termination;
  spawned : list (nat * list jstring);   (* workerId and chunk of each Worker *)
  merged : option (list jstring);        (* newlyAvailableUsernames after the join *)
  appended : list jstring;               (* uniqueNewUsernames of the appendFile call *)
  writes : list jstring;                 (* data of each appendFile call *)
  record_after : RecordFile
}.

Definition appendFile (r : RecordFile) (data : jstring) : RecordFile :=
  match r with
  | NoFile => File data true
  | File content readable => File (content ++ data) readable
  end.

(** A run that ends, or stalls, before it gets to write anything. *)
Definition no_write (e : Env) (sp : list (nat * list jstring)) (t : Termination)
  : Outcome :=
  {| termination := t; spawned := sp; merged := None; appended := [];
     writes := []; record_after := record e |}.

(** The part of [runMain] from "Process Results" on. *)
Definition processResults (e : Env) (sp : list (nat * list jstring))
    (newlyAvailable : list jstring) : Outcome :=
  if 0 <? length newlyAvailable then
    let uniqueNewUsernames := Set_of newlyAvailable in
    let data := join_lines uniqueNewUsernames ++ [LF] in
    {| termination := Exited 0; spawned := sp; merged := Some newlyAvailable;
       appended := uniqueNewUsernames; writes := [data];
       record_after := if append_ok e then appendFile (record e) data
                       else record e |}
  else
    {| termination := Exited 0; spawned := sp; merged := Some newlyAvailable;
       appended := []; writes := []; record_after := record e |}.

(** The [try] block from the join on, with its [catch]. *)
Definition joinAndProcess (e : Env) (sp : list (nat * list jstring)) : Outcome :=
  match await_all (order e) (start e sp) with
  | Fulfilled st => processResults e sp (newlyAvailableUsernames st)
  | Failed _ => no_write e sp (Exited 0)
  | Waiting _ => no_write e sp Hangs
  end.

(** [finally { if (browser) { await browser.close(); } }], after a launch
    that succeeded: when [browser.close] rejects, so does the promise of
    [runMain], which nothing handles, and the process ends with code 1. *)
Definition closeBrowser (e : Env) (o : Outcome) : Outcome :=
  match termination o with
  | Exited _ =>
      if browser_close_ok e then o
      else {| termination := Exited 1; spawned := spawned o; merged := merged o;
              appended := appended o; writes := writes o;
              record_after := record_after o |}
  | Hangs => o
  end.

Definition runMain (e : Env) : Outcome :=
  match args e with
  | [] => no_write e [] (Exited 1)
  | inputFile :: _ =>
      match fs_read e inputFile with
      | None => no_write e [] (Exited 1)
      | Some text =>
          let allUsernamesFromFile := readUsernames text in
          if bool_decide (length allUsernamesFromFile = 0) then no_write e [] (Exited 0)
          else
            let existing := loadExisting (record e) in
            let toCheck := usernamesToCheck allUsernamesFromFile existing in
            if bool_decide (length toCheck = 0) then no_write e [] (Exited 0)
            else if launch_ok e then
              let sp := distribute (numWorkers e) toCheck in
              if loop_ends (numWorkers e)
              then closeBrowser e (joinAndProcess e sp)
              else no_write e sp Hangs
            else no_write e [] (Exited 0)
      end
  end.

(** The identifiers the workers of a run navigate to. *)
Definition probed (e : Env) (o : Outcome) : list jstring :=
  concat (map (fun w => navigations (session e (fst w)) (snd w)) (spawned o)).

End Coordinator.
Export Coordinator.


(** ** The variant without history filter (main.js) *)

Module MainJs.

(** [runMain] of main.js: the worker, the distribution, the join and the
    processing of the results are those of the variant above; the record
    is never read, and all identifiers of the input are distributed. *)
Definition runMain (e : Env) : Outcome :=
  match args e with
  | [] => no_write e [] (Exited 1)
  | inputFile :: _ =>
      match fs_read e inputFile with
      | None => no_write e [] (Exited 1)
      | Some text =>
          let usernames := readUsernames text in
          if bool_decide (length usernames = 0) then no_write e [] (Exited 0)
          else if launch_ok e then
            let sp := distribute (numWorkers e) usernames in
            if loop_ends (numWorkers e)
            then closeBrowser e (joinAndProcess e sp)
            else no_write e sp Hangs
          else no_write e [] (Exited 0)
      end
  end.

End MainJs.

(** ** The variant with one worker and one browser per identifier *)

Module Legacy.

(** [s.split('\n')] *)
Fixpoint split_LF (s : jstring) : list jstring :=
  match s with
  | [] => [[]]
  | c :: s' =>
      if (c =? LF)%N then [] :: split_LF s' else push_front c (split_LF s')
  end.

(** The browser that one check launches for itself. *)
Record Browser := {
  launches : bool;          (* puppeteer.launch resolves *)
  opens : bool;             (* browser.newPage resolves *)
  shows : PageOutcome;      (* what the navigation ends in *)
  closes : bool             (* browser.close resolves *)
}.

(** What a check does to browsers. *)
Inductive Action := Launch | Close.

#[global] Instance Action_eq_dec : EqDecision Action.
Proof. solve_decision. Defined.

(** Exceptions, with the actions done so far. *)
Definition L (A : Type) := (list Action * result A)%type.

Definition lret {A} (a : A) : L A := ([], Ok a).
Definition lbind {A B} (m : L A) (k : A -> L B) : L B :=
  match m with
  | (log, Ok a) => let '(log', r) := k a in (log ++ log', r)
  | (log, Throw) => (log, Throw)
  end.
Definition attempt (ok : bool) (done : list Action) : L unit :=
  if ok then (done, Ok tt) else ([], Throw).

(** The page function, which returns [true] or [false]. *)
Definition pageFunction (msg : jstring) (serverAlert : option jstring) : bool :=
  match serverAlert with
  | Some textContent => bool_decide (trim textContent = msg)
  | None => false
  end.

(** [page.goto] and [page.evaluate] *)
Definition inspect (o : PageOutcome) : L bool :=
  match o with
  | NavigationFails => ([], Throw)
  | EvaluateFails => ([], Throw)
  | Loaded serverAlert => lret (pageFunction USERNAME_NOT_FOUND_MESSAGE serverAlert)
  end.

Definition checkAvailability (b : Browser) : L bool :=
  lbind (attempt (launches b) [Launch]) (fun _ =>
  lbind (attempt (opens b) []) (fun _ =>
  lbind (inspect (shows b)) (fun availability =>
  lbind (attempt (closes b) [Close]) (fun _ =>
  lret availability)))).

(** The worker block: the availability is posted from [then]; [catch]
    only logs. The message of the worker, if it posts one. *)
Definition workerThread (b : Browser) : option bool :=
  match snd (checkAvailability b) with
  | Ok availability => Some availability
  | Throw => None
  end.

(** What a run meets. *)
Record World := {
  source : option jstring;      (* the text of the input file; None: the
                                   read rejects *)
  available_file : RecordFile;  (* available_usernames.txt at the start *)
  appends : bool;               (* fs.appendFile resolves *)
  browser_of : nat -> Browser;  (* by position among the workers *)
  schedule : list nat           (* whose listener goes on next *)
}.

(** The 'message' listener of a worker. *)
Inductive Listener :=
| Posted (username : jstring) (availability : bool)
    (* the message has not been handled yet *)
| HasRead (username : jstring) (availableUsernames : list jstring)
    (* the record has been read; the listener is about to compare *)
| Finished.

Record State := {
  listeners : list Listener;
  file : RecordFile;
  written : list jstring      (* the usernames appended, in order *)
}.

(** The workers of [run]: one for each line that is not blank, on the
    trimmed line. *)
Definition workers (text : jstring) : list jstring :=
  map trim (filter (fun username => trim username <> []) (split_LF text)).

Definition listen (w : World) (i : nat) (username : jstring) : Listener :=
  match workerThread (browser_of w i) with
  | Some availability => Posted username availability
  | None => Finished
  end.

Definition begin (w : World) (text : jstring) : State :=
  {| listeners := imap (listen w) (workers text);
     file := available_file w;
     written := [] |}.

(** The listener of worker [p] runs up to its next [await]: from the
    message to the read of the record, then from the read to the append.
    A read that rejects ends the listener, since nothing catches it; so
    does an append that rejects. *)
Definition step (w : World) (st : State) (p : nat) : State :=
  match listeners st !! p with
  | Some (Posted username true) =>
      match file st with
      | File content true =>
          {| listeners := <[p := HasRead username (split_LF content)]> (listeners st);
             file := file st; written := written st |}
      | File _ false =>
          {| listeners := <[p := Finished]> (listeners st);
             file := file st; written := written st |}
      | NoFile =>
          {| listeners := <[p := Finished]> (listeners st);
             file := file st; written := written st |}
      end
  | Some (Posted username false) =>
      {| listeners := <[p := Finished]> (listeners st);
         file := file st; written := written st |}
  | Some (HasRead username availableUsernames) =>
      if bool_decide (username ∈ availableUsernames)
      then {| listeners := <[p := Finished]> (listeners st);
              file := file st; written := written st |}
      else if appends w
      then {| listeners := <[p := Finished]> (listeners st);
              file := appendFile (file st) (username ++ [LF]);
              written := written st ++ [username] |}
      else {| listeners := <[p := Finished]> (listeners st);
              file := file st; written := written st |}
  | Some Finished => st
  | None => st
  end.

(** [run], as far as the schedule goes. *)
Definition run (w : World) : State :=
  match source w with
  | Some text => foldl (step w) (begin w text) (schedule w)
  | None =>
      {| listeners := []; file := available_file w; written := [] |}
  end.

End Legacy.
(** * Vocabulary of the statements *)

(** A string neither end of which [trim] would touch starts clean from
    both sides. *)
Definition starts_clean (s : jstring) : Prop :=
  match s with c :: _ => is_ws c = false | [] => True end.

(** An identifier as the program reads it from a file: a trimmed,
    non-empty piece of a line. *)
Definition identifier (x : jstring) : Prop :=
  x <> [] /\ starts_clean x /\ starts_clean (rev x) /\ LF ∉ x.

(** The identifiers of a chunk whose own page classifies as available,
    the first of them being navigation number [i]. *)
Fixpoint found (s : Session) (i : nat) (chunk : list jstring) : list jstring :=
  match chunk with
  | [] => []
  | u :: rest =>
      (if bool_decide (classify (goto s i u) = available) then [u] else [])
        ++ found s (S i) rest
  end.

(** The report of a worker, by what its session does. *)
Definition report (s : Session) (chunk : list jstring) : list jstring :=
  if connect_ok s && newPage_ok s && disconnect_ok s then found s 0 chunk else [].

(** Every identifier carried by an event satisfies [P]. *)
Definition event_all (P : jstring -> Prop) (ev : WorkerEvent) : Prop :=
  match ev with
  | Message found => Forall P found
  | Error => True
  | Exit _ => True
  end.

(** Every identifier collected so far, or still to arrive, satisfies [P]. *)
Definition all_found (P : jstring -> Prop) (st : JoinState) : Prop :=
  Forall P (newlyAvailableUsernames st) /\
  Forall (Forall (event_all P)) (queues st).

(** The state in which the join ends. *)
Definition final (j : Joined) : JoinState :=
  match j with Fulfilled st => st | Failed st => st | Waiting st => st end.

(** Each worker at position [p] either still has its whole report to
    post, or its report has been collected. *)
Definition collecting (reports : list (list jstring)) (st : JoinState) : Prop :=
  forall p r, reports !! p = Some r ->
    (workerPromises st !! p = Some Pending /\
     queues st !! p = Some [Message r; Exit 0]) \/
    (workerPromises st !! p = Some Resolved /\
     r ⊆ newlyAvailableUsernames st).

(** Without an 'error' event no promise is ever rejected: a worker that
    only exits, with whatever code, does not make the join fail. *)
Definition no_error (st : JoinState) : Prop :=
  (Rejected ∉ workerPromises st) /\ Forall (fun q => Error ∉ q) (queues st).

(** The text of the record file; none when there is no file. *)
Definition text_of (r : RecordFile) : jstring :=
  match r with NoFile => [] | File content _ => content end.

(** The record is empty, or its last line is ended by a line feed. *)
Definition terminated (r : RecordFile) : Prop :=
  text_of r = [] \/ exists b, text_of r = b ++ [LF].

(** The text of the input file of a run, when it can be read. *)
Definition input (e : Env) : option jstring :=
  match args e with
  | inputFile :: _ => fs_read e inputFile
  | [] => None
  end.

(** The work set of a run whose input file holds [text]. *)
Definition workSet (e : Env) (text : jstring) : list jstring :=
  usernamesToCheck (readUsernames text) (loadExisting (record e)).

(** What reaches the join of a run has been found available by a worker
    of the run, in its part of the work set. *)
Definition found_by (e : Env) (text : jstring) (x : jstring) : Prop :=
  x ∈ workSet e text /\
  exists workerId j, classify (goto (session e workerId) j x) = available.

(** The worker fails as a whole: its outer [try] block is left by an
    exception, or [workerCheckAvailability] itself throws. *)
Definition catastrophic (s : Session) (chunk : list jstring) : Prop :=
  snd (tryBlock s chunk init_vars) = Throw \/
  snd (workerCheckAvailability s chunk init_vars) = Throw.

(** [map] of the standard library is [fmap] on lists. *)
Ltac as_fmap :=
  repeat match goal with
    | |- context [map ?f ?l] => change (map f l) with (f <$> l)
    | H : context [map ?f ?l] |- _ => change (map f l) with (f <$> l) in H
    end.


(** ** Sample data *)

Module Sample.

Definition bob := of_ascii "bob".
Definition carol := of_ascii "carol".
Definition dave := of_ascii "dave".

(** The page of an identifier that is free, and of one that is taken. *)
Definition free : PageOutcome := Loaded (Some (of_ascii " Not Found! ")).
Definition taken : PageOutcome := Loaded (Some (of_ascii "Level 80")).

(** A remote service on which carol is free, dave cannot be loaded and
    everyone else is taken. *)
Definition service (u : jstring) : PageOutcome :=
  if bool_decide (u = carol) then free
  else if bool_decide (u = dave) then NavigationFails
  else taken.

Definition healthy (svc : jstring -> PageOutcome) : Session :=
  {| connect_ok := true; newPage_ok := true; goto := fun _ u => svc u;
     close_ok := true; disconnect_ok := true |}.

(** The connection is lost after the first identifier: later navigations
    and [page.close] fail. *)
Definition dropped : Session :=
  {| connect_ok := true; newPage_ok := true;
     goto := fun i _ => match i with 0 => free | _ => NavigationFails end;
     close_ok := false; disconnect_ok := true |}.

(** One worker checks carol; the record holds bob, without a final line
    feed. *)
Definition first_run : Env :=
  {| args := [of_ascii "usernames.txt"; of_ascii "1"];
     fs_read := fun _ => Some (carol ++ [LF]);
     record := File bob true;
     append_ok := true; cpus := 4; launch_ok := true;
     browser_close_ok := true;
     session := fun _ => healthy service;
     fate := fun _ => Completes;
     order := [0] |}.

Definition second_run : Env :=
  {| args := args first_run; fs_read := fs_read first_run;
     record := record_after (runMain first_run);
     append_ok := true; cpus := 4; launch_ok := true;
     browser_close_ok := true;
     session := fun _ => healthy service;
     fate := fun _ => Completes;
     order := [0] |}.

(** The same, over a record whose last line is ended. *)
Definition clean_run : Env :=
  {| args := args first_run; fs_read := fs_read first_run;
     record := File (bob ++ [LF]) true;
     append_ok := true; cpus := 4; launch_ok := true;
     browser_close_ok := true;
     session := fun _ => healthy service;
     fate := fun _ => Completes;
     order := [0] |}.

Definition clean_rerun : Env :=
  {| args := args first_run; fs_read := fs_read first_run;
     record := record_after (runMain clean_run);
     append_ok := true; cpus := 4; launch_ok := true;
     browser_close_ok := true;
     session := fun _ => healthy service;
     fate := fun _ => Completes;
     order := [0] |}.

(** Two workers, on which everyone is free; the first worker thread
    dies of an uncaught exception. *)
Definition crash_run (events_order : list nat) : Env :=
  {| args := [of_ascii "usernames.txt"; of_ascii "2"];
     fs_read := fun _ => Some (carol ++ [LF] ++ dave ++ [LF]);
     record := NoFile;
     append_ok := true; cpus := 4; launch_ok := true;
     browser_close_ok := true;
     session := fun _ => healthy (fun _ => free);
     fate := fun workerId => match workerId with 1 => Crashes | _ => Completes end;
     order := events_order |}.

(** A worker count that is not one. *)
Definition zero_run : Env :=
  {| args := [of_ascii "usernames.txt"; of_ascii "0"];
     fs_read := fun _ => Some (carol ++ [LF] ++ dave ++ [LF]);
     record := NoFile;
     append_ok := true; cpus := 4; launch_ok := true;
     browser_close_ok := true;
     session := fun _ => healthy (fun _ => free);
     fate := fun _ => Completes;
     order := [] |}.

(** The same with an input file that cannot be read, and with a browser
    that fails to close. *)
Definition zero_run_unreadable : Env :=
  {| args := args zero_run; fs_read := fun _ => None;
     record := NoFile;
     append_ok := true; cpus := 4; launch_ok := true;
     browser_close_ok := true;
     session := session zero_run; fate := fate zero_run; order := [] |}.

Definition zero_run_unclosed : Env :=
  {| args := args zero_run; fs_read := fs_read zero_run;
     record := NoFile;
     append_ok := true; cpus := 4; launch_ok := true;
     browser_close_ok := false;
     session := session zero_run; fate := fate zero_run; order := [] |}.


(** The worker count is given as the empty string. *)
Definition empty_count_run : Env :=
  {| args := [of_ascii "usernames.txt"; []];
     fs_read := fs_read zero_run;
     record := NoFile;
     append_ok := true; cpus := 4; launch_ok := true;
     browser_close_ok := true;
     session := session zero_run; fate := fate zero_run; order := [0; 1] |}.

End Sample.

(** ** Vocabulary of the further properties *)

(** A line of the legacy reader against the line of the batch reader: the
    same, but for a carriage return left at its end. *)
Definition same_line (p q : jstring) : Prop := q = p \/ q = p ++ [CR].


(** Every worker whose promise is pending still has an event to emit. *)
Definition ready (st : JoinState) : Prop :=
  forall p, workerPromises st !! p = Some Pending ->
    exists ev q, queues st !! p = Some (ev :: q).

(** Each worker that has a report either still has it to post, or the
    report has been collected; the other workers have none. *)
Definition collecting_some (reports : list (option (list jstring)))
    (st : JoinState) : Prop :=
  forall p r, reports !! p = Some (Some r) ->
    (workerPromises st !! p = Some Pending /\
     queues st !! p = Some [Message r; Exit 0]) \/
    (workerPromises st !! p = Some Resolved /\
     r ⊆ newlyAvailableUsernames st).

(** The report of a spawned worker, if its thread gets to post it. *)
Definition report_of (e : Env) (w : nat * list jstring)
  : option (list jstring) :=
  match fate e (fst w) with
  | Completes => Some (report (session e (fst w)) (snd w))
  | Crashes => None
  | Killed _ => None
  end.

(** The run, had it found no record. *)
Definition forget_record (e : Env) : Env :=
  {| args := args e; fs_read := fs_read e; record := NoFile;
     append_ok := append_ok e; cpus := cpus e; launch_ok := launch_ok e;
     browser_close_ok := browser_close_ok e;
     session := session e; fate := fate e; order := order e |}.

(** A schedule in which each listener, once started, runs to its end
    before another one starts. *)
Definition one_by_one (ps : list nat) : list nat :=
  concat (map (fun p => [p; p]) ps).

(** The listener at position [i] belongs to the worker on the [i]-th
    identifier of the input, and has been started by the message of that
    worker. *)
Definition listener_ok (w : Legacy.World) (text : jstring) (i : nat)
    (l : Legacy.Listener) : Prop :=
  match l with
  | Legacy.Posted username availability =>
      Legacy.workers text !! i = Some username /\
      Legacy.workerThread (Legacy.browser_of w i) = Some availability
  | Legacy.HasRead username _ =>
      Legacy.workers text !! i = Some username /\
      Legacy.workerThread (Legacy.browser_of w i) = Some true
  | Legacy.Finished => True
  end.

(** No listener is between its two awaits. *)
Definition at_rest (l : Legacy.Listener) : Prop :=
  match l with Legacy.HasRead _ _ => False | _ => True end.

(** The lines of the record, as the legacy listener sees them. *)
Definition lines_of (r : RecordFile) : list jstring :=
  Legacy.split_LF (text_of r).

(** What a check does to browsers, and how it ends. *)
Definition actions (b : Legacy.Browser) : list Legacy.Action :=
  fst (Legacy.checkAvailability b).
Definition completion (b : Legacy.Browser) : result bool :=
  snd (Legacy.checkAvailability b).

(** A property of every listener, by position. *)
Definition each_listener (Q : nat -> Legacy.Listener -> Prop)
    (ls : list Legacy.Listener) : Prop :=
  forall i l, ls !! i = Some l -> Q i l.

(** A listener is replaced: the goal on the new list of listeners follows
    by [lem] from the one on the old list. *)
Ltac update_listener lem :=
  cbn [Legacy.listeners Legacy.file Legacy.written]; apply lem;
    [done|intros _; first [exact I | assumption | by split | done]].

(** What holds of the legacy run at every point of every schedule. *)
Definition legacy_inv (w : Legacy.World) (text : jstring) (st : Legacy.State)
  : Prop :=
  each_listener (listener_ok w text) (Legacy.listeners st)
  /\ text_of (Legacy.file st) =
       text_of (Legacy.available_file w)
       ++ concat (map (fun u => u ++ [LF]) (Legacy.written st))
  /\ forall u, u ∈ Legacy.written st ->
       exists i, Legacy.workers text !! i = Some u /\
         Legacy.workerThread (Legacy.browser_of w i) = Some true.

(** What holds between listeners that run one by one. *)
Definition sequential_inv (w : Legacy.World) (text : jstring) (st : Legacy.State)
  : Prop :=
  each_listener (fun i l => listener_ok w text i l /\ at_rest l)
    (Legacy.listeners st)
  /\ terminated (Legacy.file st)
  /\ NoDup (Legacy.written st)
  /\ (forall u, u ∈ Legacy.written st ->
        u ∈ lines_of (Legacy.file st) /\ u ∉ lines_of (Legacy.available_file w))
  /\ (forall x, x ∈ lines_of (Legacy.available_file w) ->
        x ∈ lines_of (Legacy.file st)).

(** What holds when the listeners at the positions [turns] have run, one
    by one, over a readable record. *)
Definition turn_inv (w : Legacy.World) (text : jstring) (turns : list nat)
    (st : Legacy.State) : Prop :=
  sequential_inv w text st
  /\ (exists c, Legacy.file st = File c true)
  /\ (forall i, i ∉ turns ->
        Legacy.listeners st !! i = Legacy.listeners (Legacy.begin w text) !! i)
  /\ (forall i, i ∈ turns ->
        Legacy.listeners st !! i = Some Legacy.Finished
        \/ Legacy.listeners st !! i = None)
  /\ (forall x, x ∈ Legacy.written st <->
        (x ∉ lines_of (Legacy.available_file w)) /\
        exists i, i ∈ turns /\ Legacy.workers text !! i = Some x /\
          Legacy.workerThread (Legacy.browser_of w i) = Some true)
  /\ (forall x, x ∈ lines_of (Legacy.file st) ->
        x ∈ lines_of (Legacy.available_file w) \/ x ∈ Legacy.written st).

(** Without a readable record nothing happens to it. *)
Definition idle_inv (w : Legacy.World) (st : Legacy.State) : Prop :=
  each_listener (fun _ l => at_rest l) (Legacy.listeners st)
  /\ Legacy.file st = Legacy.available_file w
  /\ Legacy.written st = [].

(** Two workers, on which everyone is free; the first worker thread is
    ended from outside before it posts anything. *)
Definition killed_run : Env :=
  {| args := [of_ascii "usernames.txt"; of_ascii "2"];
     fs_read := fun _ => Some (Sample.carol ++ [LF] ++ Sample.dave ++ [LF]);
     record := NoFile;
     append_ok := true; cpus := 4; launch_ok := true;
     browser_close_ok := true;
     session := fun _ => Sample.healthy (fun _ => Sample.free);
     fate := fun workerId => match workerId with 1 => Killed 1 | _ => Completes end;
     order := [0; 1] |}.

(** ** Sample data for the variant with one worker per identifier *)

Module LegacySample.

Definition working (o : PageOutcome) : Legacy.Browser :=
  {| Legacy.launches := true; Legacy.opens := true; Legacy.shows := o;
     Legacy.closes := true |}.

(** carol is on two lines of the input, and free; the record holds bob.
    Both listeners read the record before either of them appends. *)
Definition interleaved : Legacy.World :=
  {| Legacy.source := Some (Sample.carol ++ [LF] ++ Sample.carol ++ [LF]);
     Legacy.available_file := File (Sample.bob ++ [LF]) true;
     Legacy.appends := true;
     Legacy.browser_of := fun _ => working Sample.free;
     Legacy.schedule := [0; 1; 0; 1] |}.

(** The same, the listeners running one after the other. *)
Definition in_turn : Legacy.World :=
  {| Legacy.source := Legacy.source interleaved;
     Legacy.available_file := Legacy.available_file interleaved;
     Legacy.appends := true;
     Legacy.browser_of := Legacy.browser_of interleaved;
     Legacy.schedule := one_by_one [0; 1] |}.

(** The same, without a record file. *)
Definition no_record : Legacy.World :=
  {| Legacy.source := Legacy.source interleaved;
     Legacy.available_file := NoFile;
     Legacy.appends := true;
     Legacy.browser_of := Legacy.browser_of interleaved;
     Legacy.schedule := one_by_one [0; 1] |}.

End LegacySample.

(** * Properties *)

(** ** Trimming and line splitting *)

Section Strings.

Implicit Types (s t x : jstring) (c : char).

Lemma trimStart_clean s : starts_clean (trimStart s).
Proof.
  induction s as [|c s IH]; simpl; [done|].
  destruct (is_ws c) eqn:E; [done|]. simpl. done.
Qed.

Lemma trimStart_id s : starts_clean s -> trimStart s = s.
Proof. destruct s as [|c s]; simpl; [done|]. by intros ->. Qed.

Lemma trimStart_suffix s : trimStart s `suffix_of` s.
Proof.
  induction s as [|c s IH]; simpl; [done|].
  destruct (is_ws c); [by apply suffix_cons_r | done].
Qed.

Lemma trimEnd_prefix s : trimEnd s `prefix_of` s.
Proof.
  unfold trimEnd. destruct (trimStart_suffix (rev s)) as [k Hk].
  exists (rev k). apply (f_equal (@rev _)) in Hk.
  rewrite rev_involutive, rev_app_distr in Hk. done.
Qed.

Lemma trimEnd_id s : starts_clean (rev s) -> trimEnd s = s.
Proof. intros H. unfold trimEnd. by rewrite trimStart_id, rev_involutive. Qed.

Lemma trimEnd_clean s : starts_clean (rev (trimEnd s)).
Proof. unfold trimEnd. rewrite rev_involutive. apply trimStart_clean. Qed.

Lemma prefix_starts_clean s t :
  s `prefix_of` t -> starts_clean t -> starts_clean s.
Proof. intros [k ->]. by destruct s. Qed.

Lemma trim_clean s : starts_clean (trim s) /\ starts_clean (rev (trim s)).
Proof.
  split; [|apply trimEnd_clean].
  eapply prefix_starts_clean; [apply trimEnd_prefix | apply trimStart_clean].
Qed.

Lemma trim_fixed s :
  starts_clean s -> starts_clean (rev s) -> trim s = s.
Proof. intros H1 H2. unfold trim. by rewrite trimStart_id, trimEnd_id. Qed.

Lemma elem_of_trim c s : c ∈ trim s -> c ∈ s.
Proof.
  intros H. destruct (trimEnd_prefix (trimStart s)) as [k Hk].
  destruct (trimStart_suffix s) as [k' Hk'].
  rewrite Hk', Hk. unfold trim in H.
  apply elem_of_app; right. apply elem_of_app; by left.
Qed.

Lemma split_lines_cons c s :
  split_lines (c :: s) =
  if (c =? LF)%N then [] :: split_lines s
  else match s with
       | c' :: s'' =>
           if ((c =? CR) && (c' =? LF))%N then [] :: split_lines s''
           else push_front c (split_lines s)
       | [] => [[c]]
       end.
Proof. by destruct s. Qed.

(** No piece of a split contains a line feed. *)
Lemma split_lines_no_LF s p : p ∈ split_lines s -> LF ∉ p.
Proof.
  revert p. induction s as [s IH] using (induction_ltof1 _ (@length char)).
  unfold ltof in IH. intros p. destruct s as [|c s]; simpl.
  { intros ->%list_elem_of_singleton. by intros ?%elem_of_nil. }
  destruct (N.eqb_spec c LF) as [->|Hc].
  { intros [->|H]%elem_of_cons; [by intros ?%elem_of_nil|].
    apply (IH s); simpl; [lia|done]. }
  destruct s as [|c' s].
  { intros ->%list_elem_of_singleton. intros [?|?%elem_of_nil]%elem_of_cons; done. }
  destruct ((c =? CR) && (c' =? LF))%N eqn:E.
  { intros [->|H]%elem_of_cons; [by intros ?%elem_of_nil|].
    apply (IH s); simpl; [lia|done]. }
  intros H.
  assert (Hrec : forall q, q ∈ split_lines (c' :: s) -> LF ∉ q).
  { intros q. apply IH. simpl. lia. }
  destruct (split_lines (c' :: s)) as [|q qs]; simpl in H.
  - apply list_elem_of_singleton in H as ->.
    intros [?|?%elem_of_nil]%elem_of_cons; done.
  - apply elem_of_cons in H as [->|H].
    + intros [?|H']%elem_of_cons; [done|]. by apply (Hrec q); [left|].
    + apply Hrec. by right.
Qed.

Lemma identifier_trim x : identifier x -> trim x = x.
Proof. intros (_ & H1 & H2 & _). by apply trim_fixed. Qed.

Lemma trim_piece_identifier s p :
  p ∈ split_lines s -> trim p <> [] -> identifier (trim p).
Proof.
  intros Hp Hne. split; [done|]. destruct (trim_clean p) as [H1 H2].
  split; [done|]. split; [done|].
  intros H%elem_of_trim. by apply (split_lines_no_LF s p).
Qed.

(** A line that holds an identifier, followed by a line feed, splits off
    as that identifier. *)
Lemma split_lines_line x rest :
  LF ∉ x -> starts_clean (rev x) ->
  split_lines (x ++ LF :: rest) = x :: split_lines rest.
Proof.
  induction x as [|c x IH]; intros HLF Hend; [done|].
  rewrite <- app_comm_cons, split_lines_cons.
  destruct (N.eqb_spec c LF) as [->|Hc]; [by destruct HLF; left|].
  destruct x as [|c' x].
  - simpl in *. destruct (N.eqb_spec c CR) as [->|Hcr]; done.
  - rewrite <- app_comm_cons.
    destruct (N.eqb_spec c' LF) as [->|Hc']; [destruct HLF; by right; left|].
    rewrite andb_false_r, app_comm_cons, IH; [done| |].
    + intros H. apply HLF. by right.
    + simpl in *. destruct (rev x ++ [c']) eqn:E; [by destruct (rev x)|].
      done.
Qed.

Lemma split_join_lines ids :
  ids <> [] -> Forall identifier ids ->
  split_lines (join_lines ids ++ [LF]) = ids ++ [[]].
Proof.
  intros Hne H. induction H as [|x ids (_ & _ & Hx & HLF) Hids IH]; [done|].
  destruct ids as [|y ids].
  - simpl. by rewrite split_lines_line.
  - change (join_lines (x :: y :: ids)) with (x ++ LF :: join_lines (y :: ids)).
    rewrite <- app_assoc, <- app_comm_cons, split_lines_line by done.
    by rewrite IH.
Qed.

(** Text that ends with a line feed: what comes after it starts on a line
    of its own. *)
Lemma split_lines_terminated b :
  exists L, L <> [] /\
    forall d, split_lines (b ++ LF :: d) = L ++ split_lines d.
Proof.
  induction b as [b IH] using (induction_ltof1 _ (@length char)).
  unfold ltof in IH. destruct b as [|c b].
  { exists [[]]. split; [done|]. intros d. done. }
  destruct (N.eqb_spec c LF) as [->|Hc].
  { destruct (IH b) as (L & _ & HL); [simpl; lia|].
    exists ([] :: L). split; [done|]. intros d.
    by rewrite <- app_comm_cons, split_lines_cons, HL. }
  destruct b as [|c' b].
  { exists (if (c =? CR)%N then [[]] else [[c]]).
    split; [by destruct (c =? CR)%N|]. intros d.
    rewrite <- app_comm_cons, split_lines_cons. simpl.
    destruct (N.eqb_spec c LF); [done|]. by destruct (c =? CR)%N. }
  destruct ((c =? CR) && (c' =? LF))%N eqn:E.
  { destruct (IH b) as (L & _ & HL); [simpl; lia|].
    exists ([] :: L). split; [done|]. intros d.
    rewrite <- !app_comm_cons, split_lines_cons.
    destruct (N.eqb_spec c LF); [done|]. by rewrite E, HL. }
  destruct (IH (c' :: b)) as (L & HLne & HL); [simpl; lia|].
  exists (push_front c L). split; [by destruct L|]. intros d.
  rewrite <- !app_comm_cons, split_lines_cons.
  destruct (N.eqb_spec c LF); [done|]. rewrite E.
  rewrite app_comm_cons, HL. by destruct L.
Qed.

End Strings.

(** ** Sets and the two readers *)

Section Readers.

Implicit Types (x u : jstring) (l set : list jstring).

Lemma has_true set x : has set x = true <-> x ∈ set.
Proof. unfold has. by rewrite bool_decide_eq_true. Qed.

Lemma elem_of_add set y x : x ∈ add set y <-> x ∈ set \/ x = y.
Proof.
  unfold add. destruct (has set y) eqn:E.
  - apply has_true in E. split; [by left|]. by intros [?| ->].
  - rewrite elem_of_app, list_elem_of_singleton. done.
Qed.

Lemma NoDup_add set y : NoDup set -> NoDup (add set y).
Proof.
  intros H. unfold add. destruct (has set y) eqn:E; [done|].
  apply NoDup_app. split; [done|]. split; [|apply NoDup_singleton].
  intros x Hx ->%list_elem_of_singleton.
  apply has_true in Hx. congruence.
Qed.

Lemma elem_of_foldl_add l set x : x ∈ foldl add set l <-> x ∈ set \/ x ∈ l.
Proof.
  revert set. induction l as [|y l IH]; intros set; simpl.
  - rewrite elem_of_nil. tauto.
  - rewrite IH, elem_of_add, elem_of_cons. tauto.
Qed.

Lemma elem_of_Set_of l x : x ∈ Set_of l <-> x ∈ l.
Proof. unfold Set_of. rewrite elem_of_foldl_add, elem_of_nil. tauto. Qed.

Lemma NoDup_Set_of l : NoDup (Set_of l).
Proof.
  unfold Set_of. assert (H : NoDup (@nil jstring)) by constructor.
  revert H. generalize (@nil jstring) as set.
  induction l as [|y l IH]; intros set H; simpl; [done|].
  by apply IH, NoDup_add.
Qed.

Lemma Set_of_nil_inv l : Set_of l = [] -> l = [].
Proof.
  intros H. apply elem_of_nil_inv. intros x Hx.
  apply elem_of_Set_of in Hx. rewrite H in Hx. by apply elem_of_nil in Hx.
Qed.

Lemma elem_of_foldl_addTrimmed pieces set x :
  x ∈ foldl addTrimmed set pieces <->
  x ∈ set \/ (x <> [] /\ exists p, p ∈ pieces /\ trim p = x).
Proof.
  revert set. induction pieces as [|q pieces IH]; intros set; simpl.
  - split; [by left|]. intros [?|(_ & p & []%elem_of_nil & _)]. done.
  - rewrite IH. unfold addTrimmed at 1. case_bool_decide as Hq.
    + rewrite elem_of_add. split.
      * intros [[?| ->]|(? & p & ? & ?)]; [by left| |].
        -- right. split; [done|]. exists q. split; [by left|done].
        -- right. split; [done|]. exists p. split; [by right|done].
      * intros [?|(? & p & [->|?]%elem_of_cons & ?)].
        -- by left; left.
        -- left; right. done.
        -- right. split; [done|]. by exists p.
    + split.
      * intros [?|(? & p & ? & ?)]; [by left|].
        right. split; [done|]. exists p. split; [by right|done].
      * intros [?|(Hx & p & [->|?]%elem_of_cons & Hp)]; [by left| |].
        -- subst x. destruct Hq. done.
        -- right. split; [done|]. by exists p.
Qed.

(** The two readers agree on what the lines of a text are. *)
Lemma elem_of_readUsernames text x :
  x ∈ readUsernames text <->
  x <> [] /\ exists p, p ∈ split_lines text /\ trim p = x.
Proof.
  unfold readUsernames. rewrite list_elem_of_filter, list_elem_of_fmap.
  split; intros (? & p & ? & ?); (split; [done|]); by exists p.
Qed.

Lemma elem_of_loadExisting content x :
  x ∈ loadExisting (File content true) <-> x ∈ readUsernames content.
Proof.
  simpl. rewrite elem_of_foldl_addTrimmed, elem_of_readUsernames, elem_of_nil.
  tauto.
Qed.

Lemma readUsernames_identifier text x :
  x ∈ readUsernames text -> identifier x.
Proof.
  intros (Hne & p & Hp & <-)%elem_of_readUsernames.
  by apply (trim_piece_identifier text).
Qed.

Lemma elem_of_usernamesToCheck all existing x :
  x ∈ usernamesToCheck all existing <-> x ∈ all /\ x ∉ existing.
Proof.
  unfold usernamesToCheck. rewrite list_elem_of_filter.
  rewrite negb_True, Is_true_true, has_true. tauto.
Qed.

End Readers.

(** ** The worker *)

Section WorkerFacts.

Implicit Types (s : Session) (u : jstring) (chunk : list jstring) (v : Vars).

Lemma iteration_run s i u v :
  iteration s i u v =
  ({| browser := browser v;
      availableUsernames :=
        availableUsernames v ++
        (if bool_decide (classify (goto s i u) = available) then [u] else []);
      visited := visited v ++ [u] |}, Ok tt).
Proof.
  unfold iteration, try_catch, bind, probe, bind, log_visit, lift, classify.
  simpl. destruct (checkPage (goto s i u)) as [isAvailable|]; simpl.
  - destruct (truthy isAvailable); simpl; by rewrite ?app_nil_r.
  - by rewrite app_nil_r.
Qed.

Lemma for_of_run s chunk : forall i v,
  for_of s i chunk v =
  ({| browser := browser v;
      availableUsernames := availableUsernames v ++ found s i chunk;
      visited := visited v ++ chunk |}, Ok tt).
Proof.
  induction chunk as [|u rest IH]; intros i v; simpl.
  - unfold ret. rewrite !app_nil_r. by destruct v.
  - unfold bind at 1. rewrite iteration_run, IH. simpl.
    by rewrite <- !app_assoc.
Qed.


Lemma found_sublist s i chunk : found s i chunk `sublist_of` chunk.
Proof.
  revert i. induction chunk as [|u rest IH]; intros i; simpl; [done|].
  case_bool_decide; simpl; [by apply sublist_skip | by apply sublist_cons].
Qed.

Lemma workerThread_report s chunk :
  workerThread s chunk = [Message (report s chunk); Exit 0].
Proof.
  unfold workerThread, report, workerCheckAvailability, tryBlock.
  unfold try_finally, try_catch, bind at 1 2 3 4 5.
  destruct (connect_ok s); simpl; [|done].
  destruct (newPage_ok s); simpl.
  - unfold bind at 1. rewrite for_of_run. simpl.
    destruct (close_ok s), (disconnect_ok s); simpl; done.
  - destruct (disconnect_ok s); done.
Qed.

Lemma report_sublist s chunk : report s chunk `sublist_of` chunk.
Proof.
  unfold report. destruct (_ && _); [apply found_sublist | apply sublist_nil_l].
Qed.

Lemma navigations_sublist s chunk x : x ∈ navigations s chunk -> x ∈ chunk.
Proof.
  unfold navigations, workerCheckAvailability, tryBlock.
  unfold try_finally, try_catch, bind at 1 2 3 4 5.
  destruct (connect_ok s); simpl; [|by intros ?%elem_of_nil].
  destruct (newPage_ok s); simpl.
  - unfold bind at 1. rewrite for_of_run. simpl.
    destruct (close_ok s), (disconnect_ok s); simpl; done.
  - destruct (disconnect_ok s); simpl; by intros ?%elem_of_nil.
Qed.

Lemma elem_of_found s i chunk x :
  x ∈ found s i chunk ->
  x ∈ chunk /\ exists j, classify (goto s j x) = available.
Proof.
  revert i. induction chunk as [|u rest IH]; intros i; simpl.
  - by intros ?%elem_of_nil.
  - intros [H|H]%elem_of_app.
    + case_bool_decide; [|by apply elem_of_nil in H].
      apply list_elem_of_singleton in H as ->. split; [by left|]. by exists i.
    + destruct (IH _ H) as [? ?]. split; [by right|done].
Qed.

Lemma found_complete s i chunk x :
  x ∈ chunk -> (forall j, classify (goto s j x) = available) ->
  x ∈ found s i chunk.
Proof.
  intros Hx Hav. revert i. induction chunk as [|u rest IH]; intros i; simpl.
  - by apply elem_of_nil in Hx.
  - apply elem_of_app. apply elem_of_cons in Hx as [->|Hx].
    + left. rewrite bool_decide_eq_true_2 by done. by left.
    + right. by apply IH.
Qed.


End WorkerFacts.

(** ** Distribution of the work *)

Section Distribution.

Implicit Types (ws c : list jstring) (sp : list (nat * list jstring)).

Lemma elem_of_concat {A} (ls : list (list A)) (x : A) :
  x ∈ concat ls <-> exists l, l ∈ ls /\ x ∈ l.
Proof.
  induction ls as [|k ls IH]; simpl.
  - split; [by intros ?%elem_of_nil | by intros (? & ?%elem_of_nil & _)].
  - rewrite elem_of_app, IH. split.
    + intros [?|(l & ? & ?)]; [exists k | exists l]; split; try done;
        [by left | by right].
    + intros (l & [->|?]%elem_of_cons & ?); [by left|]. right. by exists l.
Qed.

Lemma ceil_div_covers (total : nat) (z : Z) :
  (0 < z)%Z -> total <= Z.to_nat z * ceil_div total z.
Proof.
  intros Hz. unfold ceil_div.
  pose proof (Z.div_mod (Z.of_nat total + z - 1) z) as Hdm.
  pose proof (Z.mod_pos_bound (Z.of_nat total + z - 1) z Hz) as Hb.
  assert (0 <= (Z.of_nat total + z - 1) / z)%Z by (apply Z.div_pos; lia).
  apply Nat2Z.inj_le. rewrite Nat2Z.inj_mul, !Z2Nat.id by lia. nia.
Qed.

Lemma spawn_at_chunks k ws i :
  concat (map snd (spawn_at k ws i)) = take k (drop (i * k) ws).
Proof.
  unfold spawn_at, slice.
  replace (i * k + k - i * k) with k by lia.
  destruct (Nat.ltb_spec 0 (length (take k (drop (i * k) ws)))) as [H|H]; simpl.
  - by rewrite app_nil_r.
  - symmetry. apply nil_length_inv. lia.
Qed.

Lemma spawn_loop_chunks k ws n :
  concat (map snd (concat (map (spawn_at k ws) (seq 0 n)))) = take (n * k) ws.
Proof.
  induction n as [|n IH]; [done|].
  rewrite seq_S, map_app, concat_app, map_app, concat_app, IH. simpl.
  rewrite app_nil_r, spawn_at_chunks, take_take_drop. f_equal. lia.
Qed.

(** In order, the chunks make up the list that was distributed. *)
Lemma distribute_concat (z : Z) ws :
  (1 <= z)%Z -> concat (map snd (distribute (Num z) ws)) = ws.
Proof.
  intros Hz. unfold distribute.
  destruct (Z.ltb_spec 0 z); [|lia].
  rewrite spawn_loop_chunks. apply take_ge.
  apply ceil_div_covers. lia.
Qed.

Lemma elem_of_spawn_at k ws i w :
  w ∈ spawn_at k ws i ->
  snd w <> [] /\ length (snd w) <= k /\ snd w `sublist_of` ws /\ fst w = i + 1.
Proof.
  unfold spawn_at, slice.
  assert (Hlen : length (take (i * k + k - i * k) (drop (i * k) ws)) <= k)
    by (rewrite length_take; lia).
  assert (Hsub : take (i * k + k - i * k) (drop (i * k) ws) `sublist_of` ws)
    by (etrans; [apply sublist_take | apply sublist_drop]).
  revert Hlen Hsub. generalize (take (i * k + k - i * k) (drop (i * k) ws)) as c.
  intros c Hlen Hsub.
  destruct (Nat.ltb_spec 0 (length c)) as [H|H]; [|by intros ?%elem_of_nil].
  intros ->%list_elem_of_singleton. simpl.
  split; [destruct c; [simpl in H; lia|done]|done].
Qed.

Lemma elem_of_distribute n ws w :
  w ∈ distribute n ws ->
  snd w <> [] /\ snd w `sublist_of` ws /\
  exists z, n = Num z /\ (0 < z)%Z /\ length (snd w) <= ceil_div (length ws) z
            /\ 1 <= fst w <= Z.to_nat z.
Proof.
  destruct n as [|z|b]; simpl; [by intros ?%elem_of_nil| |by intros ?%elem_of_nil].
  destruct (Z.ltb_spec 0 z); [|by intros ?%elem_of_nil].
  intros (l & (i & -> & Hi%elem_of_seq)%list_elem_of_fmap & Hw)%elem_of_concat.
  apply elem_of_spawn_at in Hw as (? & ? & ? & ?).
  split; [done|]. split; [done|]. exists z. repeat split; [done|done|lia|lia].
Qed.

(** No worker without a positive worker count: the count is not a
    number, a number that is not positive, or minus infinity. *)
Lemma distribute_not_positive n ws :
  n = NaN \/ (exists z, n = Num z /\ (z <= 0)%Z) \/ n = Infinity true ->
  distribute n ws = [] /\ loop_ends n = true.
Proof.
  intros [->|[(z & -> & Hz)| ->]]; [done| |done]. simpl. split.
  - by destruct (Z.ltb_spec 0 z); [lia|].
  - apply Z.leb_le. assert (0 < 2 ^ 53)%Z by done. lia.
Qed.


End Distribution.

(** ** The join *)

Section Join.

Implicit Types (st : JoinState) (P : jstring -> Prop).

Lemma handle_all_found P p ev st :
  event_all P ev -> all_found P st -> all_found P (handle p ev st).
Proof.
  intros Hev [Hacc Hq]. destruct ev; (split; [simpl|done]); [|done|done].
  by apply Forall_app.
Qed.

Lemma deliver_all_found P p st : all_found P st -> all_found P (deliver p st).
Proof.
  intros [Hacc Hq]. unfold deliver.
  destruct (queues st !! p) as [[|ev q]|] eqn:E; [done| |done].
  pose proof (Forall_lookup_1 _ _ _ _ Hq E) as Hevq.
  apply Forall_cons in Hevq as [Hev Hrest].
  apply handle_all_found; [done|]. split; [done|]. simpl.
  by apply Forall_insert.
Qed.

Lemma await_all_found P order st :
  all_found P st -> all_found P (final (await_all order st)).
Proof.
  revert st. induction order as [|p order IH]; intros st H; simpl.
  - by destruct (all_state (workerPromises st)).
  - destruct (all_state (workerPromises st)); [|done|done].
    by apply IH, deliver_all_found.
Qed.

Lemma start_all_found P e sp :
  (forall w, w ∈ sp -> Forall P (report (session e (fst w)) (snd w))) ->
  all_found P (start e sp).
Proof.
  intros H. split; [done|]. simpl. apply Forall_fmap, Forall_forall.
  intros w Hw. unfold events, compose.
  destruct (fate e (fst w)).
  - rewrite workerThread_report. repeat constructor. by apply H.
  - by repeat constructor.
  - by repeat constructor.
Qed.

Lemma handle_promises_other p q ev st :
  p <> q -> workerPromises (handle q ev st) !! p = workerPromises st !! p.
Proof. intros H. destruct ev; simpl; by rewrite list_lookup_alter_ne. Qed.

Lemma handle_resolved p q ev st :
  workerPromises st !! p = Some Resolved ->
  workerPromises (handle q ev st) !! p = Some Resolved.
Proof.
  intros H. destruct (decide (p = q)) as [->|Hne].
  - destruct ev; simpl; by rewrite list_lookup_alter_eq, H.
  - by rewrite handle_promises_other.
Qed.

Lemma handle_collected q ev st :
  newlyAvailableUsernames st ⊆ newlyAvailableUsernames (handle q ev st).
Proof.
  destruct ev; simpl; [|done|done]. intros x Hx. apply elem_of_app. by left.
Qed.

Lemma deliver_collecting reports q st :
  collecting reports st -> collecting reports (deliver q st).
Proof.
  intros H p r Hr. unfold deliver.
  destruct (queues st !! q) as [[|ev rest]|] eqn:E; [by apply H| |by apply H].
  set (st' := {| queues := <[q:=rest]> (queues st);
                 workerPromises := workerPromises st;
                 newlyAvailableUsernames := newlyAvailableUsernames st |}).
  destruct (H p r Hr) as [[Hp Hq]|[Hp Hsub]].
  - destruct (decide (p = q)) as [->|Hne].
    + rewrite E in Hq. injection Hq as -> ->. right. simpl.
      rewrite list_lookup_alter_eq, Hp. split; [done|].
      intros x Hx. apply elem_of_app. by right.
    + left. rewrite handle_promises_other by done. split; [done|].
      destruct ev; simpl; by rewrite list_lookup_insert_ne.
  - right. split; [by apply handle_resolved|].
    etrans; [exact Hsub | apply (handle_collected q ev st')].
Qed.

Lemma all_state_resolved ps p :
  all_state ps = Resolved -> ps !! p <> Some Pending.
Proof.
  unfold all_state. repeat case_bool_decide; try done.
  intros _ Hp. by apply list_elem_of_lookup_2 in Hp.
Qed.

Lemma await_all_fulfilled reports order st st' :
  collecting reports st -> await_all order st = Fulfilled st' ->
  forall r, r ∈ reports -> r ⊆ newlyAvailableUsernames st'.
Proof.
  revert st. induction order as [|q order IH]; intros st H; simpl.
  - destruct (all_state (workerPromises st)) eqn:E; [done| |done].
    intros [= <-] r (p & Hp)%list_elem_of_lookup_1.
    destruct (H p r Hp) as [[Hpend _]|[_ Hsub]]; [|done].
    by apply all_state_resolved with (p := p) in E.
  - destruct (all_state (workerPromises st)) eqn:E; [| |done].
    + apply IH. by apply deliver_collecting.
    + intros [= <-] r (p & Hp)%list_elem_of_lookup_1.
      destruct (H p r Hp) as [[Hpend _]|[_ Hsub]]; [|done].
      by apply all_state_resolved with (p := p) in E.
Qed.

Lemma start_collecting e sp :
  (forall w, w ∈ sp -> fate e (fst w) = Completes) ->
  collecting (map (fun w => report (session e (fst w)) (snd w)) sp) (start e sp).
Proof.
  intros Hf p r Hr. left. simpl. as_fmap.
  rewrite list_lookup_fmap in Hr. rewrite !list_lookup_fmap.
  destruct (sp !! p) as [w|] eqn:E; [|done]. simpl in *.
  injection Hr as <-. split; [done|]. unfold events.
  rewrite Hf by (by eapply list_elem_of_lookup_2).
  by rewrite workerThread_report.
Qed.

Lemma deliver_no_error p st : no_error st -> no_error (deliver p st).
Proof.
  intros [Hp Hq]. unfold deliver.
  destruct (queues st !! p) as [[|ev q]|] eqn:E; [done| |done].
  pose proof (Forall_lookup_1 _ _ _ _ Hq E) as Hevq.
  assert (Hq' : Forall (fun q => Error ∉ q) (<[p:=q]> (queues st))).
  { apply Forall_insert; [done|]. intros H. apply Hevq. by right. }
  assert (Hres : Rejected ∉ alter (settle Resolved) p (workerPromises st)).
  { intros (i & Hi)%list_elem_of_lookup_1. rewrite list_lookup_alter in Hi.
    case_decide; [subst i|by apply list_elem_of_lookup_2 in Hi].
    destruct (workerPromises st !! p) as [x|] eqn:Ex; [|done].
    simpl in Hi. destruct x; simpl in Hi; try done.
    by apply list_elem_of_lookup_2 in Ex. }
  destruct ev; (split; [simpl|done]); [done| |done].
  destruct Hevq. by left.
Qed.

Lemma await_all_no_error order st :
  no_error st -> forall st', await_all order st <> Failed st'.
Proof.
  revert st. induction order as [|p order IH]; intros st H st'; simpl.
  - destruct (all_state (workerPromises st)) eqn:E; [done|done|].
    unfold all_state in E. destruct H as [H _].
    by rewrite bool_decide_eq_false_2 in E by done; case_bool_decide.
  - destruct (all_state (workerPromises st)) eqn:E;
      [by apply IH, deliver_no_error|done|].
    unfold all_state in E. destruct H as [H _].
    by rewrite bool_decide_eq_false_2 in E by done; case_bool_decide.
Qed.

Lemma start_no_error e sp :
  (forall w, w ∈ sp -> fate e (fst w) <> Crashes) -> no_error (start e sp).
Proof.
  intros H. split; simpl.
  - as_fmap. by intros (w & ? & _)%list_elem_of_fmap.
  - as_fmap. apply Forall_fmap, Forall_forall. intros w Hw. simpl.
    unfold events. specialize (H w Hw). destruct (fate e (fst w)); [|done|].
    + rewrite workerThread_report.
      intros [?|[?|?%elem_of_nil]%elem_of_cons]%elem_of_cons; done.
    + intros [?|?%elem_of_nil]%elem_of_cons; done.
Qed.

End Join.

(** ** The run *)

(** Closing the browser changes nothing but the way the run ends. *)
Lemma closeBrowser_spawned (e : Env) (o : Outcome) : spawned (closeBrowser e o) = spawned o.
Proof. unfold closeBrowser. by destruct (termination o), (browser_close_ok e). Qed.

Lemma closeBrowser_merged (e : Env) (o : Outcome) : merged (closeBrowser e o) = merged o.
Proof. unfold closeBrowser. by destruct (termination o), (browser_close_ok e). Qed.

Lemma closeBrowser_appended (e : Env) (o : Outcome) : appended (closeBrowser e o) = appended o.
Proof. unfold closeBrowser. by destruct (termination o), (browser_close_ok e). Qed.

Lemma closeBrowser_writes (e : Env) (o : Outcome) : writes (closeBrowser e o) = writes o.
Proof. unfold closeBrowser. by destruct (termination o), (browser_close_ok e). Qed.

Lemma closeBrowser_record_after (e : Env) (o : Outcome) :
  record_after (closeBrowser e o) = record_after o.
Proof. unfold closeBrowser. by destruct (termination o), (browser_close_ok e). Qed.

Lemma closeBrowser_termination (e : Env) (o : Outcome) :
  termination (closeBrowser e o) =
  match termination o with
  | Exited code => Exited (if browser_close_ok e then code else 1)
  | Hangs => Hangs
  end.
Proof.
  unfold closeBrowser. destruct (termination o) eqn:E, (browser_close_ok e); done.
Qed.

Lemma processResults_termination (e : Env) sp acc :
  termination (processResults e sp acc) = Exited 0.
Proof. unfold processResults. by destruct (0 <? length acc). Qed.

(** The join and what follows it end, with code 0, unless the join waits. *)
Lemma joinAndProcess_termination (e : Env) sp :
  termination (joinAndProcess e sp) =
  match await_all (order e) (start e sp) with
  | Waiting _ => Hangs
  | _ => Exited 0
  end.
Proof.
  unfold joinAndProcess. destruct (await_all _ _); [|done|done].
  apply processResults_termination.
Qed.

Create Rewrite HintDb close.

#[global] Hint Rewrite closeBrowser_spawned closeBrowser_merged
  closeBrowser_appended closeBrowser_writes closeBrowser_record_after : close.

Section Run.

Implicit Types (e : Env) (o : Outcome).

(** The shapes a run can take: it ends before any worker exists, or it
    distributes a work set that is not empty; it then joins, when the
    spawning loop comes to an end. *)
Lemma runMain_inv e :
  (exists t, runMain e = no_write e [] t /\
             ((t = Exited 0 /\ input e <> None)
              \/ (t = Exited 1 /\ input e = None))) \/
  (exists text, input e = Some text /\ launch_ok e = true /\
     workSet e text <> [] /\
     let sp := distribute (numWorkers e) (workSet e text) in
     runMain e =
     if loop_ends (numWorkers e) then closeBrowser e (joinAndProcess e sp)
     else no_write e sp Hangs).
Proof.
  unfold runMain, input, workSet. destruct (args e) as [|inputFile rest].
  { left. eexists. split; [done|]. by right. }
  destruct (fs_read e inputFile) as [text|].
  2:{ left. eexists. split; [done|]. by right. }
  case_bool_decide.
  { left. eexists. split; [done|]. by left. }
  case_bool_decide as Hw.
  { left. eexists. split; [done|]. by left. }
  destruct (launch_ok e).
  2:{ left. eexists. split; [done|]. by left. }
  right. exists text. split; [done|]. split; [done|]. split; [|done].
  intros E. by rewrite E in Hw.
Qed.

Lemma processResults_spawned e sp acc : spawned (processResults e sp acc) = sp.
Proof. unfold processResults. by destruct (0 <? length acc). Qed.

Lemma spawned_runMain e w :
  w ∈ spawned (runMain e) ->
  exists text, input e = Some text /\
    w ∈ distribute (numWorkers e) (workSet e text).
Proof.
  destruct (runMain_inv e) as [(t & -> & _)|(text & Hin & _ & _ & ->)].
  { by intros ?%elem_of_nil. }
  intros H. exists text. split; [done|].
  destruct (loop_ends _); [|done].
  rewrite closeBrowser_spawned in H. unfold joinAndProcess in H.
  destruct (await_all _ _); simpl in H; [|done|done].
  by rewrite processResults_spawned in H.
Qed.

Lemma run_all_found e text :
  all_found (found_by e text)
    (start e (distribute (numWorkers e) (workSet e text))).
Proof.
  apply start_all_found. intros w (_ & Hsub & _)%elem_of_distribute.
  apply Forall_forall. intros x Hx.
  assert (Hf : x ∈ found (session e (fst w)) 0 (snd w)).
  { unfold report in Hx. destruct (_ && _); [done|by apply elem_of_nil in Hx]. }
  apply elem_of_found in Hf as [Hc [j Hj]]. split.
  - by eapply elem_of_sublist.
  - by exists (fst w), j.
Qed.

Lemma appended_found e x :
  x ∈ appended (runMain e) ->
  exists text, input e = Some text /\ found_by e text x.
Proof.
  destruct (runMain_inv e) as [(t & -> & _)|(text & Hin & _ & _ & ->)].
  { by intros ?%elem_of_nil. }
  pose proof (await_all_found _ (order e) _ (run_all_found e text)) as [Hacc _].
  destruct (loop_ends _); [|by intros ?%elem_of_nil].
  rewrite closeBrowser_appended. unfold joinAndProcess.
  destruct (await_all _ _) as [st|st|st]; simpl in *;
    [|by intros ?%elem_of_nil|by intros ?%elem_of_nil].
  unfold processResults. destruct (0 <? length _); simpl;
    [|by intros ?%elem_of_nil].
  rewrite elem_of_Set_of. intros Hx. exists text. split; [done|].
  rewrite Forall_forall in Hacc. by apply Hacc.
Qed.

Lemma appended_runMain e x :
  x ∈ appended (runMain e) ->
  exists text, input e = Some text /\ x ∈ workSet e text.
Proof. intros (text & ? & ? & _)%appended_found. by exists text. Qed.

Lemma workSet_identifier e text x : x ∈ workSet e text -> identifier x.
Proof.
  intros [Hx _]%elem_of_usernamesToCheck. by apply (readUsernames_identifier text).
Qed.

Lemma appended_identifier e : Forall identifier (appended (runMain e)).
Proof.
  apply Forall_forall. intros x (text & _ & Hx)%appended_runMain.
  by apply (workSet_identifier e text).
Qed.

(** What a run does to the record file. *)
Lemma runMain_writes e :
  let o := runMain e in
  (writes o = [] /\ appended o = [] /\ record_after o = record e /\
   (merged o = None \/ merged o = Some [])) \/
  (exists m, m <> [] /\ merged o = Some m /\ appended o = Set_of m /\
     writes o = [join_lines (Set_of m) ++ [LF]] /\
     record_after o =
       if append_ok e then appendFile (record e) (join_lines (Set_of m) ++ [LF])
       else record e).
Proof.
  simpl. destruct (runMain_inv e) as [(t & -> & _)|(text & _ & _ & _ & ->)].
  { left. repeat split; by left. }
  destruct (loop_ends _); [|left; repeat split; by left].
  autorewrite with close. unfold joinAndProcess.
  destruct (await_all _ _) as [st|st|st];
    [|left; repeat split; by left|left; repeat split; by left].
  unfold processResults.
  destruct (newlyAvailableUsernames st) as [|x m]; simpl.
  - left. repeat split; by right.
  - right. exists (x :: m). repeat split; done.
Qed.

Lemma text_of_appendFile r data :
  text_of (appendFile r data) = text_of r ++ data.
Proof. by destruct r. Qed.

(** A run that writes has joined all its workers. *)
Lemma runMain_written e :
  writes (runMain e) <> [] ->
  exists text st,
    input e = Some text
    /\ await_all (order e) (start e (distribute (numWorkers e) (workSet e text)))
       = Fulfilled st
    /\ newlyAvailableUsernames st <> []
    /\ appended (runMain e) = Set_of (newlyAvailableUsernames st)
    /\ record_after (runMain e) =
         if append_ok e
         then appendFile (record e)
                (join_lines (Set_of (newlyAvailableUsernames st)) ++ [LF])
         else record e.
Proof.
  destruct (runMain_inv e) as [(t & -> & _)|(text & Hin & _ & _ & ->)]; [done|].
  destruct (loop_ends _); [|done].
  autorewrite with close. unfold joinAndProcess.
  destruct (await_all _ _) as [st|st|st] eqn:E; [|done|done].
  unfold processResults. intros H. exists text, st.
  destruct (newlyAvailableUsernames st) as [|x m]; [done|]. simpl. done.
Qed.

(** The lines of a record whose last line is ended, before and after
    identifiers are appended to it. *)
Lemma lines_terminated r :
  terminated r -> exists L, split_lines (text_of r) = L ++ [[]] /\
    forall ids, ids <> [] -> Forall identifier ids ->
      split_lines (text_of r ++ join_lines ids ++ [LF]) = L ++ ids ++ [[]].
Proof.
  intros [Hr|[b Hr]]; rewrite Hr.
  - exists []. split; [done|]. intros ids ? ?. by apply split_join_lines.
  - destruct (split_lines_terminated b) as (L & _ & HL). exists L.
    split; [apply (HL [])|]. intros ids ? ?.
    rewrite <- app_assoc. simpl. by rewrite HL, split_join_lines.
Qed.

(** A worker that ends abnormally without an 'error' event leaves the
    join to the others. *)
Lemma exit_alone_never_aborts e sp :
  (forall w, w ∈ sp -> fate e (fst w) <> Crashes) ->
  forall st, await_all (order e) (start e sp) <> Failed st.
Proof. intros H. by apply await_all_no_error, start_no_error. Qed.

Lemma elem_of_probed e x :
  x ∈ probed e (runMain e) ->
  exists w, w ∈ spawned (runMain e) /\ x ∈ snd w.
Proof.
  unfold probed. intros (l & Hl & Hx)%elem_of_concat. as_fmap.
  apply list_elem_of_fmap in Hl as (w & -> & Hw). exists w. split; [done|].
  by apply (navigations_sublist (session e (fst w))).
Qed.

Lemma NoDup_appended e : NoDup (appended (runMain e)).
Proof.
  destruct (runMain_writes e) as [(_ & -> & _)|(m & _ & _ & -> & _)].
  - constructor.
  - apply NoDup_Set_of.
Qed.

End Run.

(** * The properties of the specification *)

(** ** Skip correctness *)

(** C2. The work set is the input identifiers without those of the Known
    Result Set, in the order of the input, so that no identifier of the
    Known Result Set is in it. In a run, every chunk handed to a worker is
    a part of the work set: no identifier that the run has loaded from the
    record is in a chunk, and none is navigated to. *)
Theorem C2_known_identifiers_never_dispatched
    (allUsernamesFromFile existing : list jstring) (e : Env) :
  usernamesToCheck allUsernamesFromFile existing
    = filter (fun u => u ∉ existing) allUsernamesFromFile
  /\ usernamesToCheck allUsernamesFromFile existing
       `sublist_of` allUsernamesFromFile
  /\ (forall x, x ∈ existing ->
        x ∉ usernamesToCheck allUsernamesFromFile existing)
  /\ (forall w, w ∈ spawned (runMain e) ->
        (exists text, input e = Some text /\
           snd w `sublist_of`
             usernamesToCheck (readUsernames text) (loadExisting (record e)))
        /\ forall x, x ∈ loadExisting (record e) -> x ∉ snd w)
  /\ (forall x, x ∈ loadExisting (record e) -> x ∉ probed e (runMain e)).
Proof.
  assert (Hsp : forall w, w ∈ spawned (runMain e) ->
    (exists text, input e = Some text /\
       snd w `sublist_of`
         usernamesToCheck (readUsernames text) (loadExisting (record e)))
    /\ forall x, x ∈ loadExisting (record e) -> x ∉ snd w).
  { intros w (text & Hin & (_ & Hsub & _)%elem_of_distribute)%spawned_runMain.
    split; [by exists text|]. intros x Hx Hw.
    pose proof (elem_of_sublist _ _ _ Hw Hsub) as [_ Hn]%elem_of_usernamesToCheck.
    done. }
  split; [|split; [|split; [|split]]].
  - unfold usernamesToCheck. apply list_filter_iff. intros x.
    by rewrite negb_True, Is_true_true, has_true.
  - apply sublist_filter.
  - intros x Hx [_ Hn]%elem_of_usernamesToCheck. done.
  - exact Hsp.
  - intros x Hx (w & Hw & Hxw)%elem_of_probed.
    by apply (proj2 (Hsp w Hw) x).
Qed.

(** ** Partition coverage *)




(** ** The Check Protocol *)

(** C4. A page classifies as available exactly when the node selected by
    #serveralert exists and its trimmed text is the sentinel "Not Found!",
    code unit by code unit; any other loaded page, the one without the
    node included, classifies as unavailable; a navigation or evaluation
    failure classifies as indeterminate. The loop records an identifier
    exactly when its page classifies as available. *)
Theorem C4_check_protocol_classification (o : PageOutcome) :
  USERNAME_NOT_FOUND_MESSAGE = of_ascii "Not Found!"
  /\ (classify o = available <->
      exists textContent,
        o = Loaded (Some textContent) /\
        trim textContent = USERNAME_NOT_FOUND_MESSAGE)
  /\ (classify o = unavailable <->
      exists serverAlert, o = Loaded serverAlert /\
        forall textContent, serverAlert = Some textContent ->
          trim textContent <> USERNAME_NOT_FOUND_MESSAGE)
  /\ (classify o = indeterminate <-> o = NavigationFails \/ o = EvaluateFails)
  /\ forall s i u v, goto s i u = o ->
       snd (iteration s i u v) = Ok tt /\
       availableUsernames (fst (iteration s i u v)) =
         if bool_decide (classify o = available)
         then availableUsernames v ++ [u] else availableUsernames v.
Proof.
  split; [done|]. split; [|split; [|split]].
  - destruct o as [| |[t|]]; unfold classify; simpl.
    + split; [done|]. by intros (? & ? & _).
    + split; [done|]. by intros (? & ? & _).
    + case_bool_decide as Ht; simpl.
      * split; [|done]. intros _. by exists t.
      * split; [done|]. intros (t' & [= <-] & ?). done.
    + split; [done|]. by intros (? & ? & _).
  - destruct o as [| |[t|]]; unfold classify; simpl.
    + split; [done|]. by intros (? & ? & _).
    + split; [done|]. by intros (? & ? & _).
    + case_bool_decide as Ht; simpl.
      * split; [done|]. intros (sa & [= <-] & H). by destruct (H t).
      * split; [|done]. intros _. exists (Some t). split; [done|].
        by intros t' [= <-].
    + split; [|done]. intros _. exists None. by split.
  - destruct o as [| |[t|]]; unfold classify; simpl.
    + split; [by left|done].
    + split; [by right|done].
    + case_bool_decide; simpl; (split; [done|by intros [|]]).
    + split; [done|by intros [|]].
  - intros s i u v <-. rewrite iteration_run. simpl. split; [done|].
    case_bool_decide; [done|by rewrite app_nil_r].
Qed.

(** ** The worker as a whole *)

(** C5, as stated, fails: when the connection is lost after carol has
    been found, the outer [try] block is left by the exception of
    [page.close], and the worker still reports carol. *)
Lemma C5_partial_report_after_lost_connection :
  catastrophic Sample.dropped [Sample.carol; Sample.dave]
  /\ workerThread Sample.dropped [Sample.carol; Sample.dave]
     = [Message [Sample.carol]; Exit 0].
Proof. split; [by left|done]. Qed.

(** C5, amended. Whatever fails in it, a worker thread posts exactly one
    report and then ends normally; nothing propagates. The report is
    empty when the connection or the page cannot be set up, or when
    disconnecting fails; otherwise it is what the loop has accumulated,
    also when [page.close] fails after the loop. *)
Theorem C5_worker_always_reports (s : Session) (chunk : list jstring) :
  exists r,
    workerThread s chunk = [Message r; Exit 0]
    /\ (connect_ok s = false \/ newPage_ok s = false \/ disconnect_ok s = false
        -> r = [])
    /\ (connect_ok s = true /\ newPage_ok s = true /\ disconnect_ok s = true
        -> r = found s 0 chunk)
    /\ r `sublist_of` chunk.
Proof.
  exists (report s chunk). split; [apply workerThread_report|].
  split; [|split; [|apply report_sublist]]; unfold report.
  - intros [->| [->| ->]]; [done|by rewrite andb_false_r|by rewrite andb_false_r].
  - by intros (-> & -> & ->).
Qed.

(** ** Failure isolation *)



(** ** Where results come from *)

(** C9. The report a worker thread posts is a part of its chunk, in the
    order of the chunk; every identifier that a run appends to the record
    is one of the identifiers of its input file. *)
Theorem C9_results_come_from_the_input (e : Env) :
  (forall s chunk r, Message r ∈ workerThread s chunk -> r `sublist_of` chunk)
  /\ forall x, x ∈ appended (runMain e) ->
       exists text, input e = Some text /\ x ∈ readUsernames text.
Proof.
  split.
  - intros s chunk r. rewrite workerThread_report.
    intros [[= ->]|[?|?%elem_of_nil]%elem_of_cons]%elem_of_cons; [|done|done].
    apply report_sublist.
  - intros x (text & Hin & [Hx _]%elem_of_usernamesToCheck)%appended_runMain.
    by exists text.
Qed.

(** ** An invalid worker count *)

(** The counterexample to C10 as stated. An empty string given as the
    worker count makes [NaN] with [parseInt], but the program tests the
    argument before it parses it and takes the number of CPUs instead:
    two workers are spawned, both identifiers are probed and written.
    With the count 0, the exit code is 1 when the input file cannot be
    read, and when the browser fails to close. *)
Lemma C10_empty_count_argument_spawns_workers :
  (let e := Sample.empty_count_run in
   args e !! 1 = Some [] /\ parseInt10 [] = NaN
   /\ spawned (runMain e) = [(1, [Sample.carol]); (2, [Sample.dave])]
   /\ probed e (runMain e) = [Sample.carol; Sample.dave]
   /\ appended (runMain e) = [Sample.carol; Sample.dave])
  /\ (let e := Sample.zero_run_unreadable in
      args e !! 1 = Some (of_ascii "0") /\ parseInt10 (of_ascii "0") = Num 0
      /\ termination (runMain e) = Exited 1)
  /\ (let e := Sample.zero_run_unclosed in
      args e !! 1 = Some (of_ascii "0") /\ input e <> None
      /\ spawned (runMain e) = [] /\ termination (runMain e) = Exited 1).
Proof.
  split; [by vm_compute|]. split; [by vm_compute|].
  split; [done|]. split; [done|]. by vm_compute.
Qed.

(** C10, amended. When the worker-count argument is given, is not the
    empty string, and [parseInt] makes [NaN] or a value that is not
    positive of it, the run spawns no worker, navigates nowhere and
    writes nothing, and it comes to an end: with exit code 0 when the
    input file is readable and the browser closes, with exit code 1 when
    the input file is missing or unreadable. *)
Theorem C10_invalid_worker_count_spawns_nothing (e : Env) (w : jstring) :
  args e !! 1 = Some w -> w <> [] ->
  parseInt10 w = NaN \/ (exists z, parseInt10 w = Num z /\ (z <= 0)%Z)
  \/ parseInt10 w = Infinity true ->
  spawned (runMain e) = []
  /\ probed e (runMain e) = []
  /\ writes (runMain e) = []
  /\ record_after (runMain e) = record e
  /\ (input e <> None -> browser_close_ok e = true ->
      termination (runMain e) = Exited 0)
  /\ (input e = None -> termination (runMain e) = Exited 1)
  /\ termination (runMain e) <> Hangs.
Proof.
  intros Hw Hne Hn.
  assert (Hnum : numWorkers e = parseInt10 w).
  { unfold numWorkers. rewrite Hw. by destruct w. }
  assert (Hnone : forall ws, distribute (numWorkers e) ws = []
                             /\ loop_ends (numWorkers e) = true).
  { intros ws. rewrite Hnum. by apply distribute_not_positive. }
  assert (Hgoal : spawned (runMain e) = [] /\ writes (runMain e) = []
                  /\ record_after (runMain e) = record e
                  /\ (input e <> None -> browser_close_ok e = true ->
                      termination (runMain e) = Exited 0)
                  /\ (input e = None -> termination (runMain e) = Exited 1)
                  /\ termination (runMain e) <> Hangs).
  { destruct (runMain_inv e) as [(t & -> & Ht)|(text & Hin & _ & _ & ->)].
    - split; [done|]. split; [done|]. split; [done|]. split; [|split].
      + intros Hin _. by destruct Ht as [[-> _]|[_ ?]].
      + intros Hin. by destruct Ht as [[_ ?]|[-> _]].
      + by destruct Ht as [[-> _]|[-> _]].
    - destruct (Hnone (workSet e text)) as [-> ->].
      assert (joinAndProcess e [] = processResults e [] []) as ->.
      { unfold joinAndProcess. by destruct (order e). }
      autorewrite with close. rewrite closeBrowser_termination. simpl.
      split; [done|]. split; [done|]. split; [done|]. split; [|split].
      + by intros _ ->.
      + by rewrite Hin.
      + by destruct (browser_close_ok e). }
  destruct Hgoal as (Hs & ? & ? & ? & ? & ?). repeat split; try done.
  unfold probed. by rewrite Hs.
Qed.

Lemma C10_invalid_worker_count_witness :
  args Sample.zero_run !! 1 = Some (of_ascii "0")
  /\ parseInt10 (of_ascii "0") = Num 0
  /\ spawned (runMain Sample.zero_run) = []
  /\ termination (runMain Sample.zero_run) = Exited 0.
Proof.
  split; [reflexivity|]. split; [reflexivity|].
  destruct (C10_invalid_worker_count_spawns_nothing Sample.zero_run (of_ascii "0"))
    as (Hs & _ & _ & _ & Ht & _);
    [reflexivity|discriminate|right; left; exists 0%Z; split; [reflexivity|lia]|].
  split; [exact Hs|]. apply Ht; [discriminate|reflexivity].
Defined.

(** ** The join under a worker error *)

(** C1 on a run with two workers, the first of which dies of an uncaught
    exception. When its 'error' event is handled first, the join is over
    while the second worker is still pending; when the report of the
    second worker has been collected before, the join fails all the same
    and the report is never written. *)
Theorem C1_worker_error_aborts_the_join :
  (let e := Sample.crash_run [0] in
   exists st,
     await_all (order e) (start e (spawned (runMain e))) = Failed st
     /\ workerPromises st = [Rejected; Pending]
     /\ merged (runMain e) = None)
  /\ (let e := Sample.crash_run [1; 0] in
      exists st,
        await_all (order e) (start e (spawned (runMain e))) = Failed st
        /\ newlyAvailableUsernames st = [Sample.dave]
        /\ merged (runMain e) = None
        /\ writes (runMain e) = []
        /\ record_after (runMain e) = record e).
Proof.
  split; simpl; eexists; (split; [vm_compute; reflexivity|]); by vm_compute.
Qed.

(** ** Append monotonicity *)

(** C7, as stated, fails: over a record whose last line is not ended,
    the line of bob is altered and carol does not get a line of its own. *)
Lemma C7_unterminated_last_line_is_altered :
  split_lines (text_of (record Sample.first_run)) = [Sample.bob]
  /\ appended (runMain Sample.first_run) = [Sample.carol]
  /\ split_lines (text_of (record_after (runMain Sample.first_run)))
     = [Sample.bob ++ Sample.carol; []]
  /\ (Sample.bob ∉ split_lines (text_of (record_after (runMain Sample.first_run))))
  /\ (Sample.carol ∉ split_lines (text_of (record_after (runMain Sample.first_run)))).
Proof.
  split; [reflexivity|]. split; [reflexivity|]. split; [reflexivity|].
  split; intros H; vm_compute in H;
    repeat (apply elem_of_cons in H as [H|H]; [discriminate|]);
    by apply elem_of_nil in H.
Qed.

(** C7, amended. The text of the record before a run is a prefix of its
    text after the run. What is appended is the newly found identifiers
    without repetition: if there are none, nothing is written; otherwise
    the one write is these identifiers, each followed by a line feed, put
    after the existing text. When the record is empty or its last line is
    ended by a line feed, the existing lines stay as they are and each
    appended identifier is a line of its own after them. *)
Theorem C7_record_only_grows (e : Env) :
  text_of (record e) `prefix_of` text_of (record_after (runMain e))
  /\ appended (runMain e) =
       match merged (runMain e) with Some m => Set_of m | None => [] end
  /\ NoDup (appended (runMain e))
  /\ (appended (runMain e) = [] ->
        writes (runMain e) = [] /\ record_after (runMain e) = record e)
  /\ (appended (runMain e) <> [] ->
        writes (runMain e) = [join_lines (appended (runMain e)) ++ [LF]]
        /\ text_of (record_after (runMain e)) =
             if append_ok e
             then text_of (record e) ++ join_lines (appended (runMain e)) ++ [LF]
             else text_of (record e))
  /\ (terminated (record e) ->
        exists L,
          split_lines (text_of (record e)) = L ++ [[]]
          /\ (record_after (runMain e) = record e
              \/ split_lines (text_of (record_after (runMain e)))
                 = L ++ appended (runMain e) ++ [[]])).
Proof.
  pose proof (appended_identifier e) as Hid.
  pose proof (NoDup_appended e) as Hnd.
  destruct (runMain_writes e)
    as [(Hw & Ha & Hr & Hm)|(m & Hne & Hm & Ha & Hw & Hr)]; simpl in *.
  - rewrite Hw, Ha, Hr. split; [done|]. split; [by destruct Hm as [->| ->]|].
    split; [constructor|]. split; [done|]. split; [done|]. intros (L & HL & _)%lines_terminated.
    exists L. split; [done|by left].
  - assert (Hane : appended (runMain e) <> []).
    { rewrite Ha. by intros ?%Set_of_nil_inv. }
    rewrite Hm, Hw, Hr, <- Ha.
    split; [|split; [done|split; [done|split; [done|split]]]].
    + destruct (append_ok e); [|done]. rewrite text_of_appendFile.
      by apply prefix_app_r.
    + intros _. split; [done|]. destruct (append_ok e); [|done].
      apply text_of_appendFile.
    + intros (L & HL & Happ)%lines_terminated. exists L. split; [done|].
      destruct (append_ok e); [|by left]. right.
      rewrite text_of_appendFile. by apply Happ.
Qed.

Lemma C7_record_only_grows_witness :
  terminated (record Sample.clean_run)
  /\ exists L,
       split_lines (text_of (record Sample.clean_run)) = L ++ [[]]
       /\ (record_after (runMain Sample.clean_run) = record Sample.clean_run
           \/ split_lines (text_of (record_after (runMain Sample.clean_run)))
              = L ++ appended (runMain Sample.clean_run) ++ [[]]).
Proof.
  assert (H : terminated (record Sample.clean_run))
    by (right; exists Sample.bob; reflexivity).
  split; [exact H|].
  destruct (C7_record_only_grows Sample.clean_run)
    as (_ & _ & _ & _ & _ & Hlines).
  exact (Hlines H).
Defined.

(** ** Dedup idempotence *)

(** C6, as stated, fails: after a first run over a record whose last
    line is not ended, carol is appended to the line of bob; the second
    run does not find carol in the record and reports it again. *)
Lemma C6_second_run_finds_carol_again :
  input Sample.second_run = input Sample.first_run
  /\ record Sample.second_run = record_after (runMain Sample.first_run)
  /\ writes (runMain Sample.first_run) = [Sample.carol ++ [LF]]
  /\ append_ok Sample.first_run = true
  /\ (forall workerId,
        session Sample.second_run workerId = session Sample.first_run workerId)
  /\ loadExisting (record Sample.second_run) = [Sample.bob ++ Sample.carol]
  /\ merged (runMain Sample.second_run) = Some [Sample.carol]
  /\ appended (runMain Sample.second_run) = [Sample.carol].
Proof. repeat split; reflexivity. Qed.

(** In a run all of whose workers get through on a working session,
    every identifier of the work set that the service classifies as
    available has been collected when the join is over. *)
Lemma all_available_collected (e : Env) (cls : jstring -> Classification)
    (text : jstring) (st : JoinState) :
  (forall workerId, fate e workerId = Completes
     /\ connect_ok (session e workerId) = true
     /\ newPage_ok (session e workerId) = true
     /\ disconnect_ok (session e workerId) = true) ->
  (forall workerId i u, classify (goto (session e workerId) i u) = cls u) ->
  await_all (order e) (start e (distribute (numWorkers e) (workSet e text)))
    = Fulfilled st ->
  newlyAvailableUsernames st <> [] ->
  forall x, x ∈ workSet e text -> cls x = available ->
    x ∈ newlyAvailableUsernames st.
Proof.
  intros Hok Hcls Hjoin Hacc x Hx Hav.
  set (sp := distribute (numWorkers e) (workSet e text)) in *.
  assert (Hsp : sp <> []).
  { intros Hnil. rewrite Hnil in Hjoin.
    assert (Hst : st = start e []).
    { destruct (order e); simpl in Hjoin; by injection Hjoin. }
    by rewrite Hst in Hacc. }
  assert (Hcat : concat (map snd sp) = workSet e text).
  { destruct sp as [|w sp'] eqn:E; [done|].
    assert (Hw : w ∈ distribute (numWorkers e) (workSet e text))
      by (fold sp; rewrite E; by left).
    apply elem_of_distribute in Hw as (_ & _ & z & Hz & Hpos & _).
    rewrite <- E. unfold sp. rewrite Hz. apply distribute_concat. lia. }
  rewrite <- Hcat in Hx. apply elem_of_concat in Hx as (c & Hc & Hxc).
  as_fmap. apply list_elem_of_fmap in Hc as (w & -> & Hw).
  eapply (await_all_fulfilled _ _ _ _ (start_collecting e sp _) Hjoin
            (report (session e (fst w)) (snd w))).
  - as_fmap. apply list_elem_of_fmap. by exists w.
  - unfold report. destruct (Hok (fst w)) as (_ & -> & -> & ->). simpl.
    apply found_complete; [done|]. intros j. by rewrite Hcls.
  Unshelve. intros w' _. apply Hok.
Qed.

(** C6, amended. Take a first run over a record that is empty or whose
    last line is ended, in which every worker gets through on a working
    session, and whose append succeeds; then a second run on the same
    input, which reads the record the first run left and meets the same
    classification of every identifier. The second run finds nothing
    new: it appends nothing and writes nothing. *)
Theorem C6_second_run_finds_nothing_new
    (e1 e2 : Env) (cls : jstring -> Classification) :
  input e2 = input e1 ->
  terminated (record e1) ->
  (forall workerId, fate e1 workerId = Completes
     /\ connect_ok (session e1 workerId) = true
     /\ newPage_ok (session e1 workerId) = true
     /\ disconnect_ok (session e1 workerId) = true) ->
  (forall workerId i u, classify (goto (session e1 workerId) i u) = cls u) ->
  (forall workerId i u, classify (goto (session e2 workerId) i u) = cls u) ->
  writes (runMain e1) <> [] ->
  append_ok e1 = true ->
  record e2 = File (text_of (record_after (runMain e1))) true ->
  appended (runMain e2) = []
  /\ writes (runMain e2) = []
  /\ record_after (runMain e2) = record e2
  /\ (merged (runMain e2) = None \/ merged (runMain e2) = Some []).
Proof.
  intros Hin Hterm Hok Hcls1 Hcls2 Hwr Happ Hrec.
  destruct (runMain_written e1 Hwr) as (text & st & Hin1 & Hjoin & Hacc & Ha & Hr).
  rewrite Happ in Hr.
  pose proof (appended_identifier e1) as Hid. rewrite Ha in Hid.
  assert (Hne : Set_of (newlyAvailableUsernames st) <> [])
    by (by intros ?%Set_of_nil_inv).
  destruct (lines_terminated _ Hterm) as (L & HL & Hlines).
  specialize (Hlines _ Hne Hid).
  (* what the second run knows *)
  assert (Hknown : forall x,
    x ∈ loadExisting (record e1) \/ x ∈ Set_of (newlyAvailableUsernames st) ->
    x ∈ loadExisting (record e2)).
  { intros x Hx. rewrite Hrec, Hr, text_of_appendFile.
    apply elem_of_loadExisting, elem_of_readUsernames. rewrite Hlines.
    destruct Hx as [Hx|Hx].
    - destruct (record e1) as [|c [|]] eqn:E; simpl in Hx, HL;
        [by apply elem_of_nil in Hx| |by apply elem_of_nil in Hx].
      apply (elem_of_loadExisting c x), elem_of_readUsernames in Hx
        as (Hxne & p & Hp & Htrim).
      split; [done|]. exists p. split; [|done].
      rewrite HL in Hp. apply elem_of_app in Hp as [Hp|Hp].
      + apply elem_of_app. by left.
      + apply list_elem_of_singleton in Hp as ->. by destruct Hxne.
    - rewrite Forall_forall in Hid. pose proof (Hid x Hx) as Hix.
      split; [by destruct Hix|]. exists x. split.
      + apply elem_of_app. right. apply elem_of_app. by left.
      + by apply identifier_trim. }
  (* nothing of the second work set is available *)
  assert (Hnone : forall x, x ∈ workSet e2 text -> cls x <> available).
  { intros x [Hx Hnk]%elem_of_usernamesToCheck Hav. apply Hnk, Hknown. right.
    apply elem_of_Set_of.
    apply (all_available_collected e1 cls text st); try done.
    apply elem_of_usernamesToCheck. split; [done|].
    intros Hk. apply Hnk, Hknown. by left. }
  assert (Hempty : appended (runMain e2) = []).
  { apply elem_of_nil_inv. intros x (text2 & Hin2 & Hx & id & j & Hj)%appended_found.
    rewrite Hin, Hin1 in Hin2. injection Hin2 as <-.
    apply (Hnone x Hx). by rewrite <- (Hcls2 id j x). }
  destruct (runMain_writes e2)
    as [(Hw & _ & Hr2 & Hm)|(m & Hmne & _ & Ha2 & _)]; simpl in *.
  - done.
  - rewrite Hempty in Ha2. symmetry in Ha2. by apply Set_of_nil_inv in Ha2.
Qed.

Lemma C6_second_run_witness :
  input Sample.clean_rerun = input Sample.clean_run
  /\ terminated (record Sample.clean_run)
  /\ writes (runMain Sample.clean_run) <> []
  /\ appended (runMain Sample.clean_rerun) = []
  /\ writes (runMain Sample.clean_rerun) = [].
Proof.
  assert (Hterm : terminated (record Sample.clean_run))
    by (right; exists Sample.bob; reflexivity).
  assert (Hwr : writes (runMain Sample.clean_run) <> []) by discriminate.
  split; [reflexivity|]. split; [exact Hterm|]. split; [exact Hwr|].
  destruct (C6_second_run_finds_nothing_new Sample.clean_run Sample.clean_rerun
              (fun u => classify (Sample.service u)))
    as (Ha & Hw & _ & _);
    [reflexivity|exact Hterm|intros ?; repeat split; reflexivity
    |reflexivity|reflexivity|exact Hwr|reflexivity|reflexivity|].
  split; [exact Ha|exact Hw].
Defined.

(** * Further properties *)

(** ** Readers and writers of identifier files *)

Section MoreStrings.

Implicit Types (s t x p q : jstring) (c : char).

Lemma trimEnd_app_ws s c : is_ws c = true -> trimEnd (s ++ [c]) = trimEnd s.
Proof.
  intros Hc. unfold trimEnd. rewrite rev_app_distr. simpl. by rewrite Hc.
Qed.

Lemma trimStart_app_ws s c :
  is_ws c = true ->
  trimStart (s ++ [c]) = [] /\ trimStart s = [] \/
  trimStart (s ++ [c]) = trimStart s ++ [c].
Proof.
  intros Hc. induction s as [|d s IH]; simpl.
  - rewrite Hc. by left.
  - destruct (is_ws d); [done|by right].
Qed.

Lemma trim_app_ws s c : is_ws c = true -> trim (s ++ [c]) = trim s.
Proof.
  intros Hc. unfold trim.
  destruct (trimStart_app_ws s c Hc) as [[-> ->]| ->]; [done|].
  by apply trimEnd_app_ws.
Qed.

Lemma split_LF_cons c s :
  Legacy.split_LF (c :: s) =
  if (c =? LF)%N then [] :: Legacy.split_LF s
  else push_front c (Legacy.split_LF s).
Proof. done. Qed.

Lemma push_front_same_line c L1 L2 :
  L1 <> [] -> Forall2 same_line L1 L2 ->
  Forall2 same_line (push_front c L1) (push_front c L2).
Proof.
  intros Hne H. destruct H as [|p q L1' L2' Hpq H]; [done|]. simpl.
  constructor; [|done]. destruct Hpq as [->| ->]; [by left|by right].
Qed.

Lemma split_lines_ne s : split_lines s <> [].
Proof.
  destruct s as [|c s]; [done|]. rewrite split_lines_cons.
  destruct (c =? LF)%N; [done|]. destruct s as [|c' s]; [done|].
  destruct ((c =? CR) && (c' =? LF))%N; [done|].
  by destruct (split_lines (c' :: s)).
Qed.

(** Line by line, the two ways of splitting differ by a final carriage
    return at most. *)
Lemma split_same_lines s :
  Forall2 same_line (split_lines s) (Legacy.split_LF s).
Proof.
  induction s as [s IH] using (induction_ltof1 _ (@length char)).
  unfold ltof in IH. destruct s as [|c s].
  { repeat constructor. }
  rewrite split_lines_cons, split_LF_cons.
  destruct (N.eqb_spec c LF) as [->|Hc].
  { constructor; [by left|]. apply IH. simpl. lia. }
  destruct s as [|c' s].
  { repeat constructor. }
  destruct ((c =? CR) && (c' =? LF))%N eqn:E.
  - apply andb_prop in E as [->%N.eqb_eq ->%N.eqb_eq].
    rewrite split_LF_cons. simpl.
    constructor; [by right|]. apply IH. simpl. lia.
  - apply push_front_same_line; [apply split_lines_ne|].
    apply IH. simpl. lia.
Qed.

Lemma same_line_trim p q : same_line p q -> trim q = trim p.
Proof. intros [->| ->]; [done|]. by apply trim_app_ws. Qed.

Lemma map_trim_split s :
  map trim (Legacy.split_LF s) = map trim (split_lines s).
Proof.
  induction (split_same_lines s) as [|p q L1 L2 Hpq _ IH]; [done|].
  simpl. by rewrite IH, (same_line_trim p q).
Qed.

Lemma filter_map_trim (l : list jstring) :
  map trim (filter (fun u => trim u <> []) l)
  = filter (fun u => u <> []) (map trim l).
Proof.
  induction l as [|u l IH]; [done|].
  change (map trim (u :: l)) with (trim u :: map trim l).
  destruct (decide (trim u <> [])) as [H|H].
  - rewrite !filter_cons_True by done. simpl. by rewrite IH.
  - rewrite !filter_cons_False by done. done.
Qed.

Lemma filter_identifiers ids :
  Forall identifier ids -> filter (fun u : jstring => u <> []) ids = ids.
Proof.
  induction 1 as [|y l (Hy & _) _ IH]; [done|].
  rewrite filter_cons_True by done. by rewrite IH.
Qed.

Lemma map_trim_identifiers ids : Forall identifier ids -> map trim ids = ids.
Proof.
  induction 1 as [|y l Hy _ IH]; [done|]. simpl. by rewrite IH, identifier_trim.
Qed.

Lemma readUsernames_join ids :
  Forall identifier ids -> readUsernames (join_lines ids ++ [LF]) = ids.
Proof.
  intros Hid. unfold readUsernames. destruct ids as [|x ids]; [done|].
  rewrite split_join_lines by done.
  rewrite map_app, map_trim_identifiers, filter_app by done.
  rewrite filter_identifiers by done. simpl.
  rewrite filter_cons_False by (by intros H). by rewrite filter_nil, app_nil_r.
Qed.

(** The record loader is the input reader followed by [new Set]. *)
Lemma foldl_addTrimmed_add pieces : forall set,
  foldl addTrimmed set pieces
  = foldl add set (filter (fun u => u <> []) (map trim pieces)).
Proof.
  induction pieces as [|p pieces IH]; intros set; [done|].
  change (map trim (p :: pieces)) with (trim p :: map trim pieces).
  change (foldl addTrimmed set (p :: pieces))
    with (foldl addTrimmed (addTrimmed set p) pieces).
  rewrite IH. unfold addTrimmed. case_bool_decide as Hp.
  - rewrite filter_cons_True by done. reflexivity.
  - rewrite filter_cons_False by (by intros H). reflexivity.
Qed.

Lemma Set_of_snoc l x : Set_of (l ++ [x]) = add (Set_of l) x.
Proof. unfold Set_of. by rewrite foldl_app. Qed.

Lemma Set_of_sublist l : Set_of l `sublist_of` l.
Proof.
  induction l as [|x l IH] using rev_ind; [done|].
  rewrite Set_of_snoc. unfold add. destruct (has (Set_of l) x).
  - by apply sublist_inserts_r.
  - by apply sublist_app.
Qed.

Lemma Set_of_NoDup_id l : NoDup l -> Set_of l = l.
Proof.
  induction l as [|x l IH] using rev_ind; [done|].
  intros (Hl & Hx & _)%NoDup_app. rewrite Set_of_snoc, IH by done.
  unfold add. destruct (has l x) eqn:E; [|done].
  apply has_true in E. destruct (Hx x E). by left.
Qed.

End MoreStrings.

(** ** The shape of the distribution *)

Section MoreDistribution.

Implicit Types (ws : list jstring) (k n i : nat).







End MoreDistribution.

(** ** What a worker does *)

Section MoreWorker.

Implicit Types (s : Session) (chunk : list jstring).

Lemma found_filter s (cls : jstring -> Classification) chunk : forall i,
  (forall j u, classify (goto s j u) = cls u) ->
  found s i chunk = filter (fun u => cls u = available) chunk.
Proof.
  induction chunk as [|u rest IH]; intros i Hcls; [done|]. simpl.
  rewrite Hcls, (IH (S i)) by done. case_bool_decide.
  - by rewrite filter_cons_True.
  - by rewrite filter_cons_False.
Qed.

End MoreWorker.

(** ** The join comes to an end *)

Section MoreJoin.

Implicit Types (st : JoinState).

Lemma settle_not_pending (to p : PState) : to <> Pending -> settle to p <> Pending.
Proof. by destruct p. Qed.

Lemma handle_queues p ev st : queues (handle p ev st) = queues st.
Proof. by destruct ev. Qed.

Lemma handle_promise_settled p ev st x :
  workerPromises (handle p ev st) !! p = Some x -> x <> Pending.
Proof.
  destruct ev; simpl; rewrite list_lookup_alter_eq;
    destruct (workerPromises st !! p) as [y|]; simpl; try done;
    intros [= <-]; by apply settle_not_pending.
Qed.

Lemma deliver_pending q st p :
  ready st ->
  workerPromises (deliver q st) !! p = Some Pending ->
  p <> q /\ workerPromises st !! p = Some Pending.
Proof.
  intros Hready. unfold deliver.
  destruct (queues st !! q) as [[|ev rest]|] eqn:E.
  - intros Hp. split; [|done]. intros ->.
    destruct (Hready q Hp) as (? & ? & ?). congruence.
  - intros Hp. destruct (decide (p = q)) as [->|Hne].
    + by apply handle_promise_settled in Hp.
    + split; [done|]. by rewrite handle_promises_other in Hp.
  - intros Hp. split; [|done]. intros ->.
    destruct (Hready q Hp) as (? & ? & ?). congruence.
Qed.

Lemma deliver_ready q st : ready st -> ready (deliver q st).
Proof.
  intros Hready p Hp.
  destruct (deliver_pending q st p Hready Hp) as [Hne Hp'].
  destruct (Hready p Hp') as (ev & rest & Hq). exists ev, rest.
  unfold deliver. destruct (queues st !! q) as [[|ev' rest']|]; [done| |done].
  rewrite handle_queues. simpl. by rewrite list_lookup_insert_ne.
Qed.

Lemma all_state_pending ps :
  all_state ps = Pending -> exists p, ps !! p = Some Pending.
Proof.
  unfold all_state. repeat case_bool_decide; try done.
  intros _. by apply list_elem_of_lookup_1.
Qed.

(** When the main thread gets to an event of every worker, the [await]
    returns or throws. *)
Lemma await_all_ends order st :
  ready st ->
  (forall p, workerPromises st !! p = Some Pending -> p ∈ order) ->
  forall st', await_all order st <> Waiting st'.
Proof.
  revert st. induction order as [|q order IH]; intros st Hready Hfair st'; simpl.
  - destruct (all_state (workerPromises st)) eqn:E; [|done|done].
    apply all_state_pending in E as (p & Hp).
    by apply Hfair, elem_of_nil in Hp.
  - destruct (all_state (workerPromises st)) eqn:E; [|done|done].
    apply IH; [by apply deliver_ready|].
    intros p Hp. destruct (deliver_pending q st p Hready Hp) as [Hne Hp'].
    apply Hfair, elem_of_cons in Hp' as [?|?]; done.
Qed.

Lemma start_ready e sp : ready (start e sp).
Proof.
  intros p Hp. unfold start in *. cbn [workerPromises queues] in *. as_fmap.
  rewrite list_lookup_fmap in Hp. rewrite list_lookup_fmap.
  destruct (sp !! p) as [w|]; [|done]. simpl. unfold events.
  destruct (fate e (fst w)); [|by eauto|by eauto].
  rewrite workerThread_report. by eauto.
Qed.

Lemma start_pending e sp p :
  workerPromises (start e sp) !! p = Some Pending -> p < length sp.
Proof.
  unfold start. cbn [workerPromises]. as_fmap. rewrite list_lookup_fmap.
  intros H. apply lookup_lt_is_Some. by destruct (sp !! p).
Qed.

Lemma deliver_collecting_some reports q st :
  collecting_some reports st -> collecting_some reports (deliver q st).
Proof.
  intros H p r Hr. unfold deliver.
  destruct (queues st !! q) as [[|ev rest]|] eqn:E; [by apply H| |by apply H].
  set (st' := {| queues := <[q:=rest]> (queues st);
                 workerPromises := workerPromises st;
                 newlyAvailableUsernames := newlyAvailableUsernames st |}).
  destruct (H p r Hr) as [[Hp Hq]|[Hp Hsub]].
  - destruct (decide (p = q)) as [->|Hne].
    + rewrite E in Hq. injection Hq as -> ->. right. simpl.
      rewrite list_lookup_alter_eq, Hp. split; [done|].
      intros x Hx. apply elem_of_app. by right.
    + left. rewrite handle_promises_other by done. split; [done|].
      destruct ev; simpl; by rewrite list_lookup_insert_ne.
  - right. split; [by apply handle_resolved|].
    etrans; [exact Hsub | apply (handle_collected q ev st')].
Qed.

Lemma await_all_fulfilled_some reports order st st' :
  collecting_some reports st -> await_all order st = Fulfilled st' ->
  forall r, Some r ∈ reports -> r ⊆ newlyAvailableUsernames st'.
Proof.
  revert st. induction order as [|q order IH]; intros st H; simpl.
  - destruct (all_state (workerPromises st)) eqn:E; [done| |done].
    intros [= <-] r (p & Hp)%list_elem_of_lookup_1.
    destruct (H p r Hp) as [[Hpend _]|[_ Hsub]]; [|done].
    by apply all_state_resolved with (p := p) in E.
  - destruct (all_state (workerPromises st)) eqn:E; [| |done].
    + apply IH. by apply deliver_collecting_some.
    + intros [= <-] r (p & Hp)%list_elem_of_lookup_1.
      destruct (H p r Hp) as [[Hpend _]|[_ Hsub]]; [|done].
      by apply all_state_resolved with (p := p) in E.
Qed.

Lemma start_collecting_some e sp :
  collecting_some (map (report_of e) sp) (start e sp).
Proof.
  intros p r Hr. left. unfold start. cbn [workerPromises queues]. as_fmap.
  rewrite list_lookup_fmap in Hr. rewrite !list_lookup_fmap.
  destruct (sp !! p) as [w|] eqn:E; [|done]. simpl in *.
  unfold report_of in Hr. unfold events.
  destruct (fate e (fst w)); [|done|done].
  injection Hr as <-. by rewrite workerThread_report.
Qed.

End MoreJoin.

(** ** Runs, case by case *)

Section MoreRun.

Implicit Types (e : Env) (text : jstring).

Lemma usernamesToCheck_nil (all : list jstring) : usernamesToCheck all [] = all.
Proof.
  unfold usernamesToCheck. induction all as [|u all IH]; [done|].
  rewrite filter_cons_True; [by rewrite IH|].
  unfold has. rewrite bool_decide_eq_false_2; [done|]. by intros ?%elem_of_nil.
Qed.

Lemma workSet_nil_readUsernames e text :
  readUsernames text = [] -> workSet e text = [].
Proof. unfold workSet, usernamesToCheck. by intros ->. Qed.

Lemma input_Some e text :
  input e = Some text ->
  exists inputFile rest, args e = inputFile :: rest /\ fs_read e inputFile = Some text.
Proof. unfold input. destruct (args e) as [|f r]; [done|]. by eauto. Qed.

(** Nothing to check. *)
Lemma runMain_nothing e text :
  input e = Some text -> workSet e text = [] ->
  runMain e = no_write e [] (Exited 0).
Proof.
  intros (f & r & Ha & Hf)%input_Some Hw. unfold runMain. rewrite Ha, Hf.
  case_bool_decide; [done|]. unfold workSet in Hw. rewrite Hw. done.
Qed.

(** The browser cannot be launched. *)
Lemma runMain_no_browser e :
  launch_ok e = false -> input e <> None ->
  runMain e = no_write e [] (Exited 0).
Proof.
  intros Hl Hin. unfold runMain, input in *. destruct (args e) as [|f r]; [done|].
  destruct (fs_read e f); [|done]. repeat case_bool_decide; try done.
  by rewrite Hl.
Qed.

(** Something to check, and a browser. *)
Lemma runMain_main e text :
  input e = Some text -> launch_ok e = true -> workSet e text <> [] ->
  runMain e =
  if loop_ends (numWorkers e)
  then closeBrowser e
         (joinAndProcess e (distribute (numWorkers e) (workSet e text)))
  else no_write e (distribute (numWorkers e) (workSet e text)) Hangs.
Proof.
  intros (f & r & Ha & Hf)%input_Some Hl Hw. unfold runMain. rewrite Ha, Hf, Hl.
  fold (workSet e text).
  case_bool_decide as H1.
  { destruct Hw. apply workSet_nil_readUsernames. by apply nil_length_inv. }
  case_bool_decide as H2; [|done].
  destruct Hw. by apply nil_length_inv.
Qed.

Lemma runMain_unreadable e :
  input e = None -> runMain e = no_write e [] (Exited 1).
Proof.
  unfold runMain, input. destruct (args e) as [|f r]; [done|]. by intros ->.
Qed.

Lemma spawned_of_run e text :
  input e = Some text -> launch_ok e = true -> workSet e text <> [] ->
  spawned (runMain e) = distribute (numWorkers e) (workSet e text).
Proof.
  intros Hin Hl Hw. rewrite (runMain_main e text) by done.
  destruct (loop_ends _); [|done].
  rewrite closeBrowser_spawned. unfold joinAndProcess.
  destruct (await_all _ _); [|done|done]. apply processResults_spawned.
Qed.

(** What the processing of the results makes of what has been merged. *)
Lemma processResults_spec e sp (acc : list jstring) :
  termination (processResults e sp acc) = Exited 0
  /\ spawned (processResults e sp acc) = sp
  /\ merged (processResults e sp acc) = Some acc
  /\ appended (processResults e sp acc) = Set_of acc
  /\ (append_ok e = true ->
      text_of (record_after (processResults e sp acc)) =
        text_of (record e) ++
        if bool_decide (Set_of acc = []) then []
        else join_lines (Set_of acc) ++ [LF]).
Proof.
  unfold processResults. destruct acc as [|x acc]; simpl.
  - repeat split; try done. intros _. by rewrite app_nil_r.
  - repeat split; try done. intros ->. rewrite text_of_appendFile.
    rewrite bool_decide_eq_false_2; [done|]. by intros ?%Set_of_nil_inv.
Qed.

(** The spawning loop of the unfiltered variant makes the same workers. *)
Lemma spawned_of_MainJs e text :
  input e = Some text -> launch_ok e = true -> readUsernames text <> [] ->
  spawned (MainJs.runMain e) = distribute (numWorkers e) (readUsernames text).
Proof.
  intros (f & r & Ha & Hf)%input_Some Hl Hw. unfold MainJs.runMain.
  rewrite Ha, Hf, Hl. case_bool_decide as H1; [by apply nil_length_inv in H1|].
  destruct (loop_ends _); [|done].
  rewrite closeBrowser_spawned. unfold joinAndProcess.
  destruct (await_all _ _); [|done|done]. apply processResults_spawned.
Qed.

(** A join that is fulfilled, after a loop that has come to an end. *)
Lemma closed_after_join e sp st :
  await_all (order e) (start e sp) = Fulfilled st ->
  let o := closeBrowser e (joinAndProcess e sp) in
  termination o = Exited (if browser_close_ok e then 0 else 1)
  /\ spawned o = sp
  /\ merged o = Some (newlyAvailableUsernames st)
  /\ appended o = Set_of (newlyAvailableUsernames st)
  /\ (append_ok e = true ->
      text_of (record_after o) =
        text_of (record e) ++
        if bool_decide (Set_of (newlyAvailableUsernames st) = []) then []
        else join_lines (Set_of (newlyAvailableUsernames st)) ++ [LF]).
Proof.
  intros E. simpl. autorewrite with close.
  rewrite closeBrowser_termination. unfold joinAndProcess. rewrite E.
  destruct (processResults_spec e sp (newlyAvailableUsernames st))
    as (-> & -> & -> & -> & Hrec).
  done.
Qed.

(** A main thread that hears every worker does not wait forever. *)
Lemma join_heard e sp :
  (forall p, p < length sp -> p ∈ order e) ->
  forall st, await_all (order e) (start e sp) <> Waiting st.
Proof.
  intros Hfair st. apply await_all_ends; [apply start_ready|].
  intros p Hp. by apply Hfair, (start_pending e).
Qed.

(** How the part of the run that has a browser ends. *)
Lemma closed_termination e sp :
  termination (closeBrowser e (joinAndProcess e sp)) =
  match await_all (order e) (start e sp) with
  | Waiting _ => Hangs
  | _ => Exited (if browser_close_ok e then 0 else 1)
  end.
Proof.
  rewrite closeBrowser_termination, joinAndProcess_termination.
  by destruct (await_all _ _).
Qed.

(** The bounds of a count that a double holds exactly. *)
Lemma loop_ends_Num z : (z <= 2 ^ 53)%Z -> loop_ends (Num z) = true.
Proof. intros H. by apply Z.leb_le. Qed.



(** The join of a healthy system over any list of identifiers: for a
    worker count of at least one, workers that all get through on working
    sessions, and a main thread that hears every worker, the await
    returns, and what has been collected is what is available. *)
Lemma healthy_join e (cls : jstring -> Classification) (ws : list jstring) z :
  numWorkers e = Num z -> (1 <= z)%Z ->
  (forall workerId, fate e workerId = Completes
     /\ connect_ok (session e workerId) = true
     /\ newPage_ok (session e workerId) = true
     /\ disconnect_ok (session e workerId) = true) ->
  (forall workerId i u, classify (goto (session e workerId) i u) = cls u) ->
  (forall p, p < length (distribute (numWorkers e) ws) -> p ∈ order e) ->
  exists st,
    await_all (order e) (start e (distribute (numWorkers e) ws)) = Fulfilled st
    /\ forall x, x ∈ newlyAvailableUsernames st <->
         x ∈ ws /\ cls x = available.
Proof.
  intros Hn Hz Hok Hcls Hfair.
  set (sp := distribute (numWorkers e) ws) in *.
  assert (Hfrom : all_found (fun x => x ∈ ws /\ cls x = available) (start e sp)).
  { apply start_all_found. intros w (_ & Hsub & _)%elem_of_distribute.
    apply Forall_forall. intros x Hx.
    assert (Hf : x ∈ found (session e (fst w)) 0 (snd w)).
    { unfold report in Hx. destruct (_ && _); [done|by apply elem_of_nil in Hx]. }
    apply elem_of_found in Hf as [Hc [j Hj]]. split.
    - by eapply elem_of_sublist.
    - by rewrite <- (Hcls (fst w) j x). }
  apply (await_all_found _ (order e)) in Hfrom as [Hacc _].
  destruct (await_all (order e) (start e sp)) as [st|st|st] eqn:E.
  2:{ exfalso. revert E. apply exit_alone_never_aborts. intros w _.
      by destruct (Hok (fst w)) as (-> & _). }
  2:{ exfalso. revert E. apply await_all_ends; [apply start_ready|].
      intros p Hp. by apply Hfair, (start_pending e). }
  exists st. split; [done|]. intros x. split.
  { simpl in Hacc. rewrite Forall_forall in Hacc. apply Hacc. }
  intros [Hx Hav].
  assert (Hcat : concat (map snd sp) = ws).
  { unfold sp. rewrite Hn. by apply distribute_concat. }
  rewrite <- Hcat in Hx. apply elem_of_concat in Hx as (c & Hc & Hxc).
  as_fmap. apply list_elem_of_fmap in Hc as (w & -> & Hw).
  eapply (await_all_fulfilled _ _ _ _ (start_collecting e sp _) E
            (report (session e (fst w)) (snd w))).
  - as_fmap. apply list_elem_of_fmap. by exists w.
  - unfold report. destruct (Hok (fst w)) as (_ & -> & -> & ->). simpl.
    apply found_complete; [done|]. intros j. by rewrite Hcls.
  Unshelve. intros w' _. apply Hok.
Qed.

End MoreRun.

(** * Properties beyond the specification *)

(** ** Identifier files *)

(** X1. Every identifier read from the input file is the trimmed form of
    one of its lines: it is not empty, [trim] leaves it as it is, and it
    holds no line feed. The reader returns no identifier exactly when
    every line of the file is blank. *)
Theorem X1_identifiers_read_are_trimmed_lines (text : jstring) :
  Forall (fun x => x <> [] /\ trim x = x /\ (LF ∉ x)
                   /\ exists p, p ∈ split_lines text /\ x = trim p)
         (readUsernames text)
  /\ (readUsernames text = [] <-> forall p, p ∈ split_lines text -> trim p = []).
Proof.
  split.
  - apply Forall_forall. intros x Hx.
    pose proof (readUsernames_identifier text x Hx) as Hid.
    pose proof (identifier_trim x Hid) as Ht.
    destruct Hid as (Hne & _ & _ & HLF).
    apply elem_of_readUsernames in Hx as (_ & p & Hp & <-). eauto 10.
  - split.
    + intros Hnil p Hp. destruct (trim p) as [|c t] eqn:E; [done|].
      assert (H : trim p ∈ readUsernames text).
      { apply elem_of_readUsernames. split; [by rewrite E|]. by exists p. }
      rewrite Hnil in H. by apply elem_of_nil in H.
    + intros H. apply elem_of_nil_inv. intros x (Hne & p & Hp & <-)%elem_of_readUsernames.
      by apply Hne, H.
Qed.

(** X2. The reader of the variant with one worker per identifier (split
    at line feeds, trim, skip blank lines) and the reader of [runMain]
    (split at line feeds with an optional carriage return, trim, filter)
    read the same identifiers, in the same order, from every text. *)
Theorem X2_both_readers_agree (text : jstring) :
  Legacy.workers text = readUsernames text.
Proof.
  unfold Legacy.workers, readUsernames.
  by rewrite filter_map_trim, map_trim_split.
Qed.

(** X3. Identifiers written the way [runMain] appends them, each followed
    by a line feed, are read back as they were, by the reader of the input
    file and, when none is repeated, by the loader of the record. *)
Theorem X3_written_identifiers_are_read_back (ids : list jstring) :
  Forall identifier ids ->
  readUsernames (join_lines ids ++ [LF]) = ids
  /\ (NoDup ids -> loadExisting (File (join_lines ids ++ [LF]) true) = ids).
Proof.
  intros Hid. pose proof (readUsernames_join ids Hid) as Hread.
  split; [done|]. intros Hnd. simpl.
  rewrite foldl_addTrimmed_add. fold (readUsernames (join_lines ids ++ [LF])).
  rewrite Hread. by apply Set_of_NoDup_id.
Qed.

Lemma X3_written_identifiers_witness :
  Forall identifier [Sample.carol; Sample.dave]
  /\ readUsernames (join_lines [Sample.carol; Sample.dave] ++ [LF])
     = [Sample.carol; Sample.dave].
Proof.
  assert (H : Forall identifier [Sample.carol; Sample.dave]).
  { repeat constructor; try done; intros Hin; vm_compute in Hin;
      repeat (apply elem_of_cons in Hin as [Hin|Hin]; [discriminate|]);
      by apply elem_of_nil in Hin. }
  split; [exact H|].
  exact (proj1 (X3_written_identifiers_are_read_back _ H)).
Defined.

(** X4. The loader of the record is the reader of the input file followed
    by [new Set]: the loaded set holds the identifiers of the record once
    each, in the order of their first line. *)
Theorem X4_record_loader_is_reader_then_set (content : jstring) :
  loadExisting (File content true) = Set_of (readUsernames content)
  /\ NoDup (loadExisting (File content true))
  /\ loadExisting (File content true) `sublist_of` readUsernames content
  /\ forall x, x ∈ loadExisting (File content true) <-> x ∈ readUsernames content.
Proof.
  assert (H : loadExisting (File content true) = Set_of (readUsernames content)).
  { simpl. by rewrite foldl_addTrimmed_add. }
  rewrite H. split; [done|]. split; [apply NoDup_Set_of|].
  split; [apply Set_of_sublist|]. intros x. apply elem_of_Set_of.
Qed.


(** ** The distribution *)





(** ** The worker *)

(** X8. A worker that gets its connection and its page navigates to every
    identifier of its chunk exactly once, in the order of the chunk,
    whatever the probes end in; a worker that does not, navigates
    nowhere. No probe is repeated and none is skipped. *)
Theorem X8_each_identifier_is_probed_once (s : Session) (chunk : list jstring) :
  navigations s chunk = if connect_ok s && newPage_ok s then chunk else [].
Proof.
  unfold navigations, workerCheckAvailability, tryBlock.
  unfold try_finally, try_catch, bind at 1 2 3 4 5.
  destruct (connect_ok s); simpl; [|done].
  destruct (newPage_ok s); simpl.
  - unfold bind at 1. rewrite for_of_run. simpl.
    destruct (close_ok s), (disconnect_ok s); simpl; done.
  - destruct (disconnect_ok s); simpl; done.
Qed.

(** X9. On a working session, and when the classification of a page does
    not depend on when it is loaded, the report of a worker is its chunk
    filtered by availability: the available identifiers, as often and in
    the order in which the chunk has them. *)
Theorem X9_report_is_the_filtered_chunk
    (s : Session) (cls : jstring -> Classification) (chunk : list jstring) :
  connect_ok s = true -> newPage_ok s = true -> disconnect_ok s = true ->
  (forall i u, classify (goto s i u) = cls u) ->
  workerThread s chunk
  = [Message (filter (fun u => cls u = available) chunk); Exit 0].
Proof.
  intros Hc Hp Hd Hcls. rewrite workerThread_report. unfold report.
  rewrite Hc, Hp, Hd. simpl. by rewrite (found_filter s cls).
Qed.

Lemma X9_report_witness :
  workerThread (Sample.healthy Sample.service)
    [Sample.bob; Sample.carol; Sample.dave; Sample.carol]
  = [Message [Sample.carol; Sample.carol]; Exit 0].
Proof.
  rewrite (X9_report_is_the_filtered_chunk (Sample.healthy Sample.service)
             (fun u => classify (Sample.service u))); reflexivity.
Defined.

(** ** The run as a whole *)

(** X10. A run whose spawning loop comes to an end (the worker count is
    at most 2^53, or no positive number at all) and in which the main
    thread gets to handle at least one event of every worker it has
    spawned comes to an end: the join cannot wait forever, whatever the
    workers do and however they end. *)
Theorem X10_run_ends_when_every_worker_is_heard (e : Env) :
  loop_ends (numWorkers e) = true ->
  (forall p, p < length (spawned (runMain e)) -> p ∈ order e) ->
  termination (runMain e) = Exited 0 \/ termination (runMain e) = Exited 1.
Proof.
  intros Hloop Hfair.
  destruct (input e) as [text|] eqn:Hin;
    [|right; by rewrite runMain_unreadable].
  destruct (launch_ok e) eqn:Hl;
    [|left; rewrite runMain_no_browser; [done|done|by rewrite Hin]].
  destruct (decide (workSet e text = [])) as [Hw|Hw];
    [left; by rewrite (runMain_nothing e text)|].
  rewrite (spawned_of_run e text) in Hfair by done.
  rewrite (runMain_main e text), Hloop, closed_termination by done.
  pose proof (join_heard e _ Hfair) as Hends.
  destruct (await_all _ _) as [st|st|st]; [| |by destruct (Hends st)];
    destruct (browser_close_ok e); auto.
Qed.

Lemma X10_run_ends_witness :
  loop_ends (numWorkers Sample.clean_run) = true
  /\ (forall p, p < length (spawned (runMain Sample.clean_run)) ->
       p ∈ order Sample.clean_run)
  /\ (termination (runMain Sample.clean_run) = Exited 0
      \/ termination (runMain Sample.clean_run) = Exited 1).
Proof.
  assert (H : forall p, p < length (spawned (runMain Sample.clean_run)) ->
                p ∈ order Sample.clean_run).
  { intros p Hp. vm_compute in Hp. assert (p = 0) as -> by lia. by left. }
  split; [reflexivity|]. split; [exact H|].
  apply (X10_run_ends_when_every_worker_is_heard Sample.clean_run);
    [reflexivity|exact H].
Defined.

(** X11. End to end: with a readable input, a browser, a worker count
    between 1 and 2^53, workers that all get through on working sessions,
    a classification that does not change during the run, and a main
    thread that hears every worker, the run ends, with exit code 0 when
    the browser closes or there was nothing to check and with exit code 1
    otherwise, and what it appends is, without repetition, exactly the
    identifiers of the work set that are available; when the append
    succeeds the record is its old text followed by these identifiers,
    one per line. *)
Theorem X11_a_healthy_run_appends_exactly_the_available
    (e : Env) (text : jstring) (z : Z) (cls : jstring -> Classification) :
  input e = Some text -> launch_ok e = true ->
  numWorkers e = Num z -> (1 <= z <= 2 ^ 53)%Z ->
  (forall workerId, fate e workerId = Completes
     /\ connect_ok (session e workerId) = true
     /\ newPage_ok (session e workerId) = true
     /\ disconnect_ok (session e workerId) = true) ->
  (forall workerId i u, classify (goto (session e workerId) i u) = cls u) ->
  (forall p, p < length (spawned (runMain e)) -> p ∈ order e) ->
  termination (runMain e) =
    Exited (if browser_close_ok e || bool_decide (workSet e text = [])
            then 0 else 1)
  /\ NoDup (appended (runMain e))
  /\ (forall x, x ∈ appended (runMain e) <->
        x ∈ workSet e text /\ cls x = available)
  /\ (append_ok e = true ->
      text_of (record_after (runMain e)) =
        text_of (record e) ++
        if bool_decide (appended (runMain e) = []) then []
        else join_lines (appended (runMain e)) ++ [LF]).
Proof.
  intros Hin Hl Hn [Hz Hmax] Hok Hcls Hfair.
  assert (Hnd := NoDup_appended e).
  destruct (decide (workSet e text = [])) as [Hw|Hw].
  { rewrite (runMain_nothing e text) in * by done. simpl.
    rewrite bool_decide_eq_true_2, orb_true_r by done.
    split; [done|]. split; [done|]. split.
    - intros x. rewrite Hw. split; [by intros ?%elem_of_nil|].
      by intros [?%elem_of_nil _].
    - intros _. by rewrite app_nil_r. }
  rewrite (spawned_of_run e text) in Hfair by done.
  destruct (healthy_join e cls (workSet e text) z Hn Hz Hok Hcls Hfair)
    as (st & Hjoin & Hiff).
  rewrite (runMain_main e text) in * by done.
  rewrite Hn, (loop_ends_Num z Hmax), <- Hn in *.
  destruct (closed_after_join e _ st Hjoin) as (-> & _ & _ & Ha & Hrec).
  rewrite Ha in *.
  rewrite bool_decide_eq_false_2, orb_false_r by done.
  split; [done|]. split; [done|]. split; [|done].
  intros x. by rewrite elem_of_Set_of.
Qed.

Lemma X11_healthy_run_witness :
  input Sample.clean_run = Some (Sample.carol ++ [LF])
  /\ numWorkers Sample.clean_run = Num 1
  /\ termination (runMain Sample.clean_run) = Exited 0
  /\ (forall x, x ∈ appended (runMain Sample.clean_run) <->
        x ∈ workSet Sample.clean_run (Sample.carol ++ [LF])
        /\ classify (Sample.service x) = available).
Proof.
  split; [reflexivity|]. split; [reflexivity|].
  destruct (X11_a_healthy_run_appends_exactly_the_available Sample.clean_run
              (Sample.carol ++ [LF]) 1 (fun u => classify (Sample.service u)))
    as (Ht & _ & Hiff & _);
    [reflexivity|reflexivity|reflexivity|split; [lia|discriminate]
    |intros ?; repeat split; reflexivity|reflexivity| |].
  - intros p Hp. vm_compute in Hp. assert (p = 0) as -> by lia. by left.
  - split; [exact Ht|exact Hiff].
Defined.

(** X12. The exit code of [runMain] is 1 in two cases: the input file
    argument is missing or the input file cannot be read, and then nothing
    is spawned or written; or a browser has been launched, the join has
    come to an end, and the browser fails to close. The exit code is
    otherwise 0: a browser that cannot be launched, a worker that crashes,
    an append that fails all leave it so. *)
Theorem X12_exit_code_one (e : Env) :
  (termination (runMain e) = Exited 1 <->
     input e = None \/
     (browser_close_ok e = false /\ launch_ok e = true
      /\ loop_ends (numWorkers e) = true
      /\ exists text, input e = Some text /\ workSet e text <> []
           /\ forall st,
                await_all (order e)
                  (start e (distribute (numWorkers e) (workSet e text)))
                <> Waiting st))
  /\ (input e = None -> runMain e = no_write e [] (Exited 1))
  /\ (forall code, termination (runMain e) = Exited code ->
        code = 0%Z \/ code = 1%Z)
  /\ (input e <> None -> browser_close_ok e = true ->
      termination (runMain e) = Exited 0 \/ termination (runMain e) = Hangs).
Proof.
  split; [|split; [apply runMain_unreadable|]].
  - split.
    + intros Ht.
      destruct (runMain_inv e)
        as [(t & Hrun & [[-> _]|[_ ?]])|(text & Hin & Hl & Hw & Hrun)];
        [by rewrite Hrun in Ht|by left|].
      simpl in Hrun. rewrite Hrun in Ht. right.
      destruct (loop_ends (numWorkers e)); [|done].
      rewrite closed_termination in Ht.
      destruct (browser_close_ok e);
        [by destruct (await_all _ _)|].
      split; [done|]. split; [done|]. split; [done|].
      exists text. split; [done|]. split; [done|].
      intros st E. by rewrite E in Ht.
    + intros [Hin|(Hc & Hl & Hloop & text & Hin & Hw & Hends)];
        [by rewrite runMain_unreadable|].
      rewrite (runMain_main e text), Hloop, closed_termination, Hc by done.
      destruct (await_all _ _) as [st|st|st]; [done|done|by destruct (Hends st)].
  - assert (H : termination (runMain e) = Hangs \/
                termination (runMain e) =
                  Exited (if browser_close_ok e then 0 else 1) \/
                (termination (runMain e) = Exited 0 /\ input e <> None) \/
                (termination (runMain e) = Exited 1 /\ input e = None)).
    { destruct (runMain_inv e)
        as [(t & -> & [[-> ?]|[-> ?]])|(text & Hin & Hl & Hw & ->)];
        [by right; right; left|by right; right; right|].
      destruct (loop_ends (numWorkers e)); [|by left].
      rewrite closed_termination.
      destruct (await_all _ _); [by right; left|by right; left|by left]. }
    split.
    + intros code Hc. rewrite Hc in H.
      destruct H as [H|[H|[[H _]|[H _]]]]; simplify_eq;
        [destruct (browser_close_ok e)| |]; auto.
    + intros Hin Hc. rewrite Hc in H.
      destruct H as [H|[H|[[H _]|[_ H]]]]; auto; done.
Qed.

(** X13. When every identifier of the input file is already in the loaded
    record, and in particular when the input file holds no identifier at
    all, the run ends with exit code 0 without spawning a worker and
    without touching the record. *)
Theorem X13_nothing_to_check (e : Env) (text : jstring) :
  input e = Some text ->
  (forall x, x ∈ readUsernames text -> x ∈ loadExisting (record e)) ->
  runMain e = no_write e [] (Exited 0)
  /\ probed e (runMain e) = [].
Proof.
  intros Hin Hall.
  assert (Hw : workSet e text = []).
  { apply elem_of_nil_inv. intros x [Hx Hn]%elem_of_usernamesToCheck. auto. }
  by rewrite (runMain_nothing e text).
Qed.

Lemma X13_nothing_to_check_witness :
  input Sample.clean_rerun = Some (Sample.carol ++ [LF])
  /\ runMain Sample.clean_rerun = no_write Sample.clean_rerun [] (Exited 0).
Proof.
  split; [reflexivity|].
  apply (X13_nothing_to_check Sample.clean_rerun (Sample.carol ++ [LF]));
    [reflexivity|].
  intros x Hx. vm_compute in Hx. vm_compute.
  apply elem_of_cons in Hx as [->|Hx]; [|by apply elem_of_nil in Hx].
  right. by left.
Defined.

(** ** The variant without history filter *)

(** X14. [runMain] of main.js behaves as the [runMain] that filters
    against the record would if there were no record: the same workers,
    the same results, the same write and the same exit; what it writes
    goes after the text of the record it has not read. When the record
    gives nothing to filter with, the two variants do the same. *)
Theorem X14_unfiltered_variant_is_the_filtered_one_without_record (e : Env) :
  termination (MainJs.runMain e) = termination (runMain (forget_record e))
  /\ spawned (MainJs.runMain e) = spawned (runMain (forget_record e))
  /\ merged (MainJs.runMain e) = merged (runMain (forget_record e))
  /\ appended (MainJs.runMain e) = appended (runMain (forget_record e))
  /\ writes (MainJs.runMain e) = writes (runMain (forget_record e))
  /\ text_of (record_after (MainJs.runMain e))
     = text_of (record e) ++ text_of (record_after (runMain (forget_record e)))
  /\ (loadExisting (record e) = [] -> MainJs.runMain e = runMain e).
Proof.
  assert (Hsame : loadExisting (record e) = [] -> MainJs.runMain e = runMain e).
  { intros Hnil. unfold MainJs.runMain, runMain.
    destruct (args e) as [|f r]; [done|]. destruct (fs_read e f) as [text|]; [|done].
    rewrite Hnil, usernamesToCheck_nil.
    case_bool_decide; [done|]. done. }
  repeat split; try done;
    unfold MainJs.runMain, runMain; simpl;
    (destruct (args e) as [|f r]; [by rewrite ?app_nil_r|]);
    (destruct (fs_read e f) as [text|]; [|by rewrite ?app_nil_r]);
    rewrite usernamesToCheck_nil;
    (case_bool_decide; [by rewrite ?app_nil_r|]);
    (destruct (launch_ok e); [|by rewrite ?app_nil_r]);
    change (numWorkers (forget_record e)) with (numWorkers e);
    (destruct (loop_ends _); [|by rewrite ?app_nil_r]);
    rewrite ?closeBrowser_termination; autorewrite with close;
    unfold joinAndProcess;
    change (start (forget_record e)) with (start e);
    change (order (forget_record e)) with (order e);
    change (browser_close_ok (forget_record e)) with (browser_close_ok e);
    (destruct (await_all _ _); [|by rewrite ?app_nil_r|by rewrite ?app_nil_r]);
    unfold processResults; simpl;
    (destruct (0 <? _); simpl; [|by rewrite ?app_nil_r]); try done.
  destruct (append_ok e); simpl; [|by rewrite app_nil_r].
  apply text_of_appendFile.
Qed.

(** X21. A worker that ends without an 'error' event, with whatever exit
    code, does not abort the join: when the spawning loop comes to an
    end, no spawned worker crashes and the main thread hears every
    worker, the run gets to process its results and ends, with exit code
    0 when the browser closes and 1 when it does not, and the results
    hold the report of every worker whose thread has got through; a
    worker that has only exited contributes nothing. *)
Theorem X21_abnormal_exit_does_not_abort_the_join (e : Env) (text : jstring) :
  input e = Some text -> launch_ok e = true -> workSet e text <> [] ->
  loop_ends (numWorkers e) = true ->
  (forall w, w ∈ spawned (runMain e) -> fate e (fst w) <> Crashes) ->
  (forall p, p < length (spawned (runMain e)) -> p ∈ order e) ->
  exists m,
    merged (runMain e) = Some m
    /\ termination (runMain e) = Exited (if browser_close_ok e then 0 else 1)
    /\ (forall w r, w ∈ spawned (runMain e) -> fate e (fst w) = Completes ->
          Message r ∈ workerThread (session e (fst w)) (snd w) -> r ⊆ m)
    /\ (forall x, x ∈ m ->
          x ∈ workSet e text /\
          exists workerId j,
            classify (goto (session e workerId) j x) = available).
Proof.
  intros Hin Hl Hw Hloop Hfate Hfair.
  rewrite (spawned_of_run e text) in Hfate, Hfair |- * by done.
  pose proof (await_all_found _ (order e) _ (run_all_found e text)) as [Hacc _].
  pose proof (fun st' => await_all_fulfilled_some _ (order e) _ st'
                (start_collecting_some e
                   (distribute (numWorkers e) (workSet e text)))) as Hcoll.
  pose proof (join_heard e _ Hfair) as Hends.
  rewrite (runMain_main e text), Hloop by done.
  destruct (await_all _ _) as [st|st|st] eqn:E.
  2:{ exfalso. revert E. by apply exit_alone_never_aborts. }
  2:{ by destruct (Hends st). }
  exists (newlyAvailableUsernames st).
  destruct (closed_after_join e _ st E) as (-> & _ & -> & _).
  split; [done|]. split; [done|]. split.
  - intros w r Hin_w Hcomp. rewrite workerThread_report.
    intros [[= ->]|[?|?%elem_of_nil]%elem_of_cons]%elem_of_cons; [|done|done].
    apply (Hcoll st eq_refl). as_fmap. apply list_elem_of_fmap. exists w.
    split; [|done]. unfold report_of. by rewrite Hcomp.
  - intros x Hx. simpl in Hacc. rewrite Forall_forall in Hacc.
    by apply Hacc.
Qed.

Lemma X21_abnormal_exit_witness :
  input killed_run = Some (Sample.carol ++ [LF] ++ Sample.dave ++ [LF])
  /\ fate killed_run 1 = Killed 1
  /\ exists m, merged (runMain killed_run) = Some m
       /\ termination (runMain killed_run) = Exited 0.
Proof.
  split; [reflexivity|]. split; [reflexivity|].
  destruct (X21_abnormal_exit_does_not_abort_the_join killed_run
              (Sample.carol ++ [LF] ++ Sample.dave ++ [LF]))
    as (m & Hm & Ht & _);
    [reflexivity|reflexivity|discriminate|reflexivity| | |].
  - intros w Hw. vm_compute in Hw.
    repeat (apply elem_of_cons in Hw as [->|Hw]; [discriminate|]).
    by apply elem_of_nil in Hw.
  - intros p Hp. vm_compute in Hp.
    destruct p as [|[|p]]; [by left|by right; left|lia].
  - exists m. split; [exact Hm|exact Ht].
Defined.

(** X22. The variant of main.js does not look at the record: in a healthy
    run, with a worker count between 1 and 2^53, it appends exactly the
    identifiers of its input that are available, those that the record
    already holds included; it ends with exit code 0 when the browser
    closes or the input holds no identifier, with exit code 1 otherwise. *)
Theorem X22_unfiltered_variant_appends_known_identifiers_again
    (e : Env) (text : jstring) (z : Z) (cls : jstring -> Classification) :
  input e = Some text -> launch_ok e = true ->
  numWorkers e = Num z -> (1 <= z <= 2 ^ 53)%Z ->
  (forall workerId, fate e workerId = Completes
     /\ connect_ok (session e workerId) = true
     /\ newPage_ok (session e workerId) = true
     /\ disconnect_ok (session e workerId) = true) ->
  (forall workerId i u, classify (goto (session e workerId) i u) = cls u) ->
  (forall p, p < length (spawned (MainJs.runMain e)) -> p ∈ order e) ->
  termination (MainJs.runMain e) =
    Exited (if browser_close_ok e || bool_decide (readUsernames text = [])
            then 0 else 1)
  /\ forall x, x ∈ appended (MainJs.runMain e) <->
       x ∈ readUsernames text /\ cls x = available.
Proof.
  intros Hin Hl Hn [Hz Hmax] Hok Hcls Hfair.
  destruct (decide (readUsernames text = [])) as [Hempty|Hempty].
  { rewrite bool_decide_eq_true_2, orb_true_r by done.
    apply input_Some in Hin as (f & r & Ha & Hf).
    unfold MainJs.runMain. rewrite Ha, Hf, Hempty. simpl. split; [done|].
    intros x. split; [by intros ?%elem_of_nil|]. by intros [?%elem_of_nil _]. }
  rewrite (spawned_of_MainJs e text) in Hfair by done.
  destruct (healthy_join e cls (readUsernames text) z Hn Hz Hok Hcls Hfair)
    as (st & Hjoin & Hiff).
  rewrite bool_decide_eq_false_2, orb_false_r by done.
  apply input_Some in Hin as (f & r & Ha & Hf).
  unfold MainJs.runMain. rewrite Ha, Hf, Hl.
  case_bool_decide as H0; [by apply nil_length_inv in H0|].
  rewrite Hn, (loop_ends_Num z Hmax), <- Hn.
  destruct (closed_after_join e _ st Hjoin) as (-> & _ & _ & -> & _).
  split; [done|]. intros x. by rewrite elem_of_Set_of.
Qed.

Lemma X22_unfiltered_variant_witness :
  Sample.carol ∈ loadExisting (record Sample.clean_rerun)
  /\ forall x, x ∈ appended (MainJs.runMain Sample.clean_rerun) <->
       x ∈ readUsernames (Sample.carol ++ [LF])
       /\ classify (Sample.service x) = available.
Proof.
  split; [vm_compute; right; by left|].
  destruct (X22_unfiltered_variant_appends_known_identifiers_again
              Sample.clean_rerun (Sample.carol ++ [LF]) 1
              (fun u => classify (Sample.service u)))
    as (_ & Hiff);
    [reflexivity|reflexivity|reflexivity|split; [lia|discriminate]
    |intros ?; repeat split; reflexivity|reflexivity| |exact Hiff].
  intros p Hp. vm_compute in Hp. assert (p = 0) as -> by lia. by left.
Defined.

(** ** Worker counts that a double does not hold *)






(** ** The variant with one worker per identifier *)

Section LegacyFacts.

Import Legacy.

Implicit Types (w : World) (st : State) (b : Browser).

Lemma foldl_invariant {A B} (I : A -> Prop) (f : A -> B -> A) (l : list B) :
  (forall a y, I a -> I (f a y)) -> forall a, I a -> I (foldl f a l).
Proof.
  intros Hstep. induction l as [|y l IH]; intros a Ha; [done|].
  simpl. by apply IH, Hstep.
Qed.

Lemma checkAvailability_run b :
  checkAvailability b =
  if launches b then
    if opens b then
      match classify (shows b) with
      | available => if closes b then ([Launch; Close], Ok true) else ([Launch], Throw)
      | unavailable => if closes b then ([Launch; Close], Ok false) else ([Launch], Throw)
      | indeterminate => ([Launch], Throw)
      end
    else ([Launch], Throw)
  else ([], Throw).
Proof.
  unfold checkAvailability, attempt, lbind, lret, inspect, classify, checkPage.
  destruct (launches b); [|done]. destruct (opens b); [|done].
  destruct (shows b) as [| |[t|]]; simpl; try done.
  - unfold Worker.pageFunction. simpl.
    case_bool_decide; simpl; by destruct (closes b).
  - by destruct (closes b).
Qed.

Lemma split_LF_ne s : split_LF s <> [].
Proof.
  induction s as [|c s IH]; [done|]. simpl. destruct (c =? LF)%N; [done|].
  by destruct (split_LF s).
Qed.

(** Splitting at line feeds goes through concatenation at a line feed. *)
Lemma split_LF_app a d : split_LF (a ++ LF :: d) = split_LF a ++ split_LF d.
Proof.
  induction a as [|c a IH]; [done|]. simpl. rewrite IH.
  destruct (c =? LF)%N; [done|].
  pose proof (split_LF_ne a). by destruct (split_LF a).
Qed.

Lemma split_LF_line u : LF ∉ u -> split_LF u = [u].
Proof.
  induction u as [|c u IH]; [done|]. intros H. simpl.
  destruct (N.eqb_spec c LF) as [->|_]; [destruct H; by left|].
  rewrite IH; [done|]. intros ?. apply H. by right.
Qed.

Lemma split_LF_no_LF s p : p ∈ split_LF s -> LF ∉ p.
Proof.
  revert p. induction s as [|c s IH]; intros p; simpl.
  { intros ->%list_elem_of_singleton. by intros ?%elem_of_nil. }
  destruct (N.eqb_spec c LF) as [->|Hc].
  { intros [->|H]%elem_of_cons; [by intros ?%elem_of_nil|by apply IH]. }
  pose proof (split_LF_ne s) as Hne.
  destruct (split_LF s) as [|q qs]; [done|]. simpl.
  intros [->|Hp]%elem_of_cons.
  - intros [?|?]%elem_of_cons; [done|]. by apply (IH q); [left|].
  - apply IH. by right.
Qed.

Lemma workers_no_LF text u : u ∈ workers text -> LF ∉ u.
Proof.
  unfold workers. as_fmap.
  intros (p & -> & [_ Hp]%list_elem_of_filter)%list_elem_of_fmap.
  intros H%elem_of_trim. by apply (split_LF_no_LF text p).
Qed.

(** The lines of a record whose last line is ended, after a username has
    been appended: the old lines, and the username on its own line. *)
Lemma lines_of_append r u :
  terminated r -> LF ∉ u ->
  terminated (appendFile r (u ++ [LF]))
  /\ forall x, x ∈ lines_of (appendFile r (u ++ [LF])) <->
       x ∈ lines_of r \/ x = u.
Proof.
  intros Hr Hu. split.
  { right. exists (text_of r ++ u). by rewrite text_of_appendFile, app_assoc. }
  intros x. unfold lines_of. rewrite text_of_appendFile.
  assert (Hone : split_LF (u ++ [LF]) = [u; []]).
  { by rewrite split_LF_app, split_LF_line. }
  destruct Hr as [->|[b ->]].
  - rewrite app_nil_l, Hone. change (split_LF []) with [@nil char].
    rewrite !elem_of_cons, !elem_of_nil. tauto.
  - rewrite <- app_assoc. change ([LF] ++ u ++ [LF]) with (LF :: u ++ [LF]).
    rewrite (split_LF_app b (u ++ [LF])), (split_LF_app b []), Hone.
    change (split_LF []) with [@nil char].
    rewrite !elem_of_app, !elem_of_cons, !elem_of_nil. tauto.
Qed.

Lemma begin_listener_ok w text i l :
  listeners (begin w text) !! i = Some l -> listener_ok w text i l /\ at_rest l.
Proof.
  unfold begin. simpl. rewrite list_lookup_imap.
  destruct (workers text !! i) as [u|] eqn:E; [|done]. simpl.
  intros [= <-]. unfold listen.
  by destruct (workerThread (browser_of w i)) eqn:Ew.
Qed.

Lemma each_listener_insert Q ls p x :
  each_listener Q ls -> (p < length ls -> Q p x) ->
  each_listener Q (<[p := x]> ls).
Proof.
  intros Hall Hx i l [(-> & -> & Hlt)|[_ Hl]]%list_lookup_insert_Some;
    [by apply Hx|by apply Hall].
Qed.

Lemma step_legacy_inv w text st p :
  legacy_inv w text st -> legacy_inv w text (step w st p).
Proof.
  intros (Hls & Htext & Hwr). unfold step.
  destruct (listeners st !! p) as [[u [|]|u lines|]|] eqn:E; try done.
  - pose proof (Hls p _ E) as Hok.
    destruct (file st) as [|c [|]] eqn:Ef; (split; [update_listener each_listener_insert|done]).
  - split; [update_listener each_listener_insert|done].
  - pose proof (Hls p _ E) as [Hu Hav].
    case_bool_decide; [split; [update_listener each_listener_insert|done]|].
    destruct (appends w); [|split; [update_listener each_listener_insert|done]].
    split; [update_listener each_listener_insert|]. cbn [listeners file written]. split.
    + rewrite text_of_appendFile, Htext, map_app, concat_app. simpl.
      by rewrite app_nil_r, <- app_assoc.
    + intros x [Hx| ->%list_elem_of_singleton]%elem_of_app; [by apply Hwr|].
      by exists p.
Qed.

Lemma begin_legacy_inv w text : legacy_inv w text (begin w text).
Proof.
  split; [|split].
  - intros i l Hl. by apply begin_listener_ok in Hl as [? _].
  - simpl. by rewrite app_nil_r.
  - simpl. by intros u ?%elem_of_nil.
Qed.

Lemma step_idle_inv w st p :
  (available_file w = NoFile \/ exists c, available_file w = File c false) ->
  idle_inv w st -> idle_inv w (step w st p).
Proof.
  intros Hfile (Hls & Hf & Hwr). unfold step.
  destruct (listeners st !! p) as [[u [|]|u lines|]|] eqn:E; try done.
  - rewrite Hf. destruct Hfile as [Hno|[c Hno]]; rewrite Hno;
      (split; [update_listener each_listener_insert|by rewrite <- Hno]).
  - split; [update_listener each_listener_insert|done].
  - by destruct (Hls p _ E).
Qed.

(** A listener that runs from its message to its end. *)
Lemma step_twice_sequential w text st p :
  sequential_inv w text st ->
  sequential_inv w text (step w (step w st p) p).
Proof.
  intros (Hls & Hterm & Hnd & Hwr & Hold).
  assert (Hfin : forall st', listeners st' !! p = Some Finished ->
                   step w st' p = st').
  { intros st' H. unfold step. by rewrite H. }
  assert (Hins : forall x, p < length (listeners st) ->
                   <[p := x]> (listeners st) !! p = Some x).
  { intros x Hlt. by apply list_lookup_insert_eq. }
  destruct (listeners st !! p) as [l|] eqn:E.
  2:{ assert (Hno : step w st p = st) by (unfold step; by rewrite E).
      by rewrite !Hno. }
  pose proof (lookup_lt_Some _ _ _ E) as Hlt.
  pose proof (Hls p l E) as [Hok Hrest].
  destruct l as [u [|]|u lines|]; [| | done |].
  - (* the worker has posted true *)
    destruct Hok as [Hu Hav].
    assert (HLF : LF ∉ u).
    { apply (workers_no_LF text). by eapply list_elem_of_lookup_2. }
    unfold step at 2. rewrite E.
    destruct (file st) as [|c [|]] eqn:Ef.
    + rewrite Hfin by (by apply Hins).
      split; [update_listener each_listener_insert|done].
    + unfold step. cbn [listeners file written]. rewrite Hins by done.
      rewrite list_insert_insert_eq.
      case_bool_decide as Hin.
      { split; [update_listener each_listener_insert|done]. }
      destruct (appends w).
      2:{ split; [update_listener each_listener_insert|done]. }
      destruct (lines_of_append (File c true) u Hterm HLF) as [Hterm' Hlines].
      assert (Hnew : u ∉ lines_of (File c true)) by done.
      split; [update_listener each_listener_insert|]. cbn [file written].
      split; [done|]. split; [|split].
      * apply NoDup_app. split; [done|]. split; [|apply NoDup_singleton].
        intros x Hx ->%list_elem_of_singleton. by apply Hwr in Hx as [? _].
      * intros x [Hx| ->%list_elem_of_singleton]%elem_of_app.
        -- destruct (Hwr x Hx) as [? ?]. split; [|done]. apply Hlines. by left.
        -- split; [apply Hlines; by right|]. intros ?. by apply Hnew, Hold.
      * intros x Hx. apply Hlines. left. by apply Hold.
    + rewrite Hfin by (by apply Hins).
      split; [update_listener each_listener_insert|done].
  - (* the worker has posted false *)
    unfold step at 2. rewrite E. rewrite Hfin by (by apply Hins).
    split; [update_listener each_listener_insert|done].
  - rewrite (Hfin st E), (Hfin st E).
    exact (conj Hls (conj Hterm (conj Hnd (conj Hwr Hold)))).
Qed.

Lemma foldl_one_by_one w st ps :
  foldl (step w) st (one_by_one ps)
  = foldl (fun st p => step w (step w st p) p) st ps.
Proof.
  revert st. induction ps as [|p ps IH]; intros st; [done|].
  unfold one_by_one in *. simpl. by rewrite IH.
Qed.

Lemma begin_sequential_inv w text :
  terminated (available_file w) -> sequential_inv w text (begin w text).
Proof.
  intros Hterm. split; [|split; [done|split; [constructor|split]]].
  - intros i l Hl. by apply begin_listener_ok.
  - simpl. by intros u ?%elem_of_nil.
  - done.
Qed.

Lemma step_read w st p u c :
  listeners st !! p = Some (Posted u true) -> file st = File c true ->
  step w st p =
  {| listeners := <[p := HasRead u (split_LF c)]> (listeners st);
     file := file st; written := written st |}.
Proof. intros Hp Hf. unfold step. by rewrite Hp, Hf. Qed.

Lemma step_append w st p u lines :
  listeners st !! p = Some (HasRead u lines) -> u ∉ lines ->
  appends w = true ->
  step w st p =
  {| listeners := <[p := Finished]> (listeners st);
     file := appendFile (file st) (u ++ [LF]);
     written := written st ++ [u] |}.
Proof.
  intros Hp Hu Ha. unfold step. rewrite Hp, Ha.
  by rewrite bool_decide_eq_false_2.
Qed.

(** What a listener that runs from its message to its end changes. *)
Lemma step_twice_spec w text st p :
  sequential_inv w text st ->
  (forall i, i <> p ->
     listeners (step w (step w st p) p) !! i = listeners st !! i)
  /\ (listeners (step w (step w st p) p) !! p = Some Finished
      \/ listeners (step w (step w st p) p) !! p = None)
  /\ match listeners st !! p, file st with
     | Some (Posted u true), File c true =>
         if bool_decide (u ∈ split_LF c) then
           file (step w (step w st p) p) = file st
           /\ written (step w (step w st p) p) = written st
         else if appends w then
           file (step w (step w st p) p) = appendFile (file st) (u ++ [LF])
           /\ written (step w (step w st p) p) = written st ++ [u]
         else
           file (step w (step w st p) p) = file st
           /\ written (step w (step w st p) p) = written st
     | _, _ =>
         file (step w (step w st p) p) = file st
         /\ written (step w (step w st p) p) = written st
     end.
Proof.
  intros (Hls & _).
  assert (Hfin : forall st', listeners st' !! p = Some Finished ->
                   step w st' p = st').
  { intros st' H. unfold step. by rewrite H. }
  destruct (listeners st !! p) as [l|] eqn:E.
  2:{ assert (Hno : step w st p = st) by (unfold step; by rewrite E).
      rewrite !Hno. split; [done|]. split; [by right|].
      by destruct (file st) as [|? [|]]. }
  pose proof (lookup_lt_Some _ _ _ E) as Hlt.
  pose proof (Hls p l E) as [_ Hrest].
  assert (Hat : forall (ls : list Listener) x i,
            i <> p -> <[p := x]> ls !! i = ls !! i).
  { intros ls x i Hi. by apply list_lookup_insert_ne. }
  assert (Hput : forall x, <[p := x]> (listeners st) !! p = Some x).
  { intros x. by apply list_lookup_insert_eq. }
  assert (Hstay : forall f, step w
            {| listeners := <[p := Finished]> (listeners st);
               file := f; written := written st |} p
            = {| listeners := <[p := Finished]> (listeners st);
                 file := f; written := written st |}).
  { intros f. apply Hfin. simpl. apply Hput. }
  destruct l as [u [|]|u lines|]; [| |done|].
  - (* true has been posted *)
    destruct (file st) as [|c [|]] eqn:Ef.
    + assert (E1 : step w st p =
        {| listeners := <[p := Finished]> (listeners st);
           file := NoFile; written := written st |})
        by (unfold step; by rewrite E, Ef).
      rewrite E1, Hstay. simpl. auto.
    + assert (E1 : step w st p =
        {| listeners := <[p := HasRead u (split_LF c)]> (listeners st);
           file := File c true; written := written st |})
        by (unfold step; by rewrite E, Ef).
      rewrite E1. unfold step. cbn [listeners file written].
      rewrite Hput, list_insert_insert_eq.
      case_bool_decide; [simpl; by auto|].
      destruct (appends w); simpl; by auto.
    + assert (E1 : step w st p =
        {| listeners := <[p := Finished]> (listeners st);
           file := File c false; written := written st |})
        by (unfold step; by rewrite E, Ef).
      rewrite E1, Hstay. simpl. auto.
  - (* false has been posted *)
    assert (E1 : step w st p =
        {| listeners := <[p := Finished]> (listeners st);
           file := file st; written := written st |})
      by (unfold step; by rewrite E).
    rewrite E1, Hstay. simpl.
    split; [by auto|]. split; [by auto|]. by destruct (file st) as [|? [|]].
  - rewrite !(Hfin st E). split; [done|]. split; [by left|].
    by destruct (file st) as [|? [|]].
Qed.

Lemma begin_lookup w text i :
  listeners (begin w text) !! i = listen w i <$> workers text !! i.
Proof. unfold begin. simpl. apply list_lookup_imap. Qed.

Lemma step_twice_turn w text turns st p :
  appends w = true ->
  turn_inv w text turns st ->
  turn_inv w text (turns ++ [p]) (step w (step w st p) p).
Proof.
  intros Happ (Hseq & [c Hc] & Hsame & Hdone & Hwr & Hlines).
  pose proof (step_twice_sequential w text st p Hseq) as Hseq'.
  destruct (step_twice_spec w text st p Hseq) as (Hother & Hp' & Hcase).
  destruct Hseq as (Hls & Hterm & Hnd & Hwr0 & Hold).
  set (st' := step w (step w st p) p) in *.
  assert (Hturns : forall i, i ∈ turns ++ [p] <-> i ∈ turns \/ i = p).
  { intros i. by rewrite elem_of_app, list_elem_of_singleton. }
  assert (Hsame' : forall i, i ∉ turns ++ [p] ->
                     listeners st' !! i = listeners (begin w text) !! i).
  { intros i Hi. rewrite Hturns in Hi. rewrite Hother by tauto.
    apply Hsame. tauto. }
  assert (Hdone' : forall i, i ∈ turns ++ [p] ->
            listeners st' !! i = Some Finished \/ listeners st' !! i = None).
  { intros i Hi. destruct (decide (i = p)) as [->|Hne]; [done|].
    rewrite Hother by done. apply Hdone. apply Hturns in Hi. tauto. }
  (* the cases in which nothing is written *)
  assert (Hquiet : file st' = file st /\ written st' = written st ->
    (forall u, workers text !! p = Some u ->
       workerThread (browser_of w p) = Some true ->
       u ∉ lines_of (available_file w) -> u ∈ written st) ->
    turn_inv w text (turns ++ [p]) st').
  { intros [Hf Hw] Hp. split; [done|]. split; [exists c; by rewrite Hf|].
    split; [done|]. split; [done|]. rewrite Hf, Hw. split; [|done].
    intros x. rewrite Hwr. split.
    - intros (Hx & i & Hi & Hrest). split; [done|]. exists i.
      split; [|done]. apply Hturns. by left.
    - intros (Hx & i & [Hi| ->]%Hturns & Hu & Hav).
      + split; [done|]. by exists i.
      + by apply Hwr, Hp. }
  destruct (decide (p ∈ turns)) as [Hin|Hnin].
  { apply Hquiet.
    - by destruct (Hdone p Hin) as [E|E]; rewrite E in Hcase.
    - intros u Hu Hav Hnew. apply Hwr. split; [done|]. by exists p. }
  pose proof (Hsame p Hnin) as E. rewrite begin_lookup in E.
  destruct (workers text !! p) as [u|] eqn:Eu; simpl in E.
  2:{ rewrite E in Hcase. apply Hquiet; [exact Hcase|]. by intros ? [=]. }
  unfold listen in E.
  destruct (workerThread (browser_of w p)) as [[|]|] eqn:Ew.
  2:{ rewrite E in Hcase. apply Hquiet; [exact Hcase|]. by intros ? _ [=]. }
  2:{ rewrite E in Hcase. apply Hquiet; [exact Hcase|]. by intros ? _ [=]. }
  rewrite E, Hc in Hcase. case_bool_decide as Hu.
  { apply Hquiet; [by rewrite Hc|]. intros ? [= <-] _ Hnew.
    destruct (Hlines u) as [?|?]; [by unfold lines_of; rewrite Hc|done|done]. }
  rewrite Happ, <- Hc in Hcase. destruct Hcase as [Hf Hw].
  assert (HLF : LF ∉ u).
  { apply (workers_no_LF text). by eapply list_elem_of_lookup_2. }
  assert (Hunew : u ∉ lines_of (available_file w)).
  { intros ?. apply Hu. change (split_LF c) with (lines_of (File c true)).
    rewrite <- Hc. by apply Hold. }
  destruct (lines_of_append (file st) u Hterm HLF) as [_ Happend].
  split; [done|]. split; [exists (c ++ u ++ [LF]); by rewrite Hf, Hc|].
  split; [done|]. split; [done|]. rewrite Hf, Hw. split.
  - intros x. rewrite elem_of_app, list_elem_of_singleton, Hwr. split.
    + intros [(Hx & i & Hi & Hrest)| ->].
      * split; [done|]. exists i. split; [|done]. apply Hturns. by left.
      * split; [done|]. exists p. split; [|done]. apply Hturns. by right.
    + intros (Hx & i & [Hi| ->]%Hturns & Hxu & Hav).
      * left. split; [done|]. by exists i.
      * right. congruence.
  - intros x [Hx| ->]%Happend.
    + destruct (Hlines x Hx) as [?|?]; [by left|].
      right. apply elem_of_app. by left.
    + right. apply elem_of_app. right. by left.
Qed.

Lemma begin_turn_inv w text c :
  available_file w = File c true -> terminated (available_file w) ->
  turn_inv w text [] (begin w text).
Proof.
  intros Hc Hterm. split; [by apply begin_sequential_inv|].
  split; [by exists c|]. split; [done|]. split; [by intros i ?%elem_of_nil|].
  split.
  - intros x. simpl. split; [by intros ?%elem_of_nil|].
    by intros (_ & i & ?%elem_of_nil & _).
  - intros x Hx. by left.
Qed.

Lemma turns_inv w text c ps :
  available_file w = File c true -> terminated (available_file w) ->
  appends w = true ->
  turn_inv w text ps
    (foldl (fun st p => step w (step w st p) p) (begin w text) ps).
Proof.
  intros Hc Hterm Happ. induction ps as [|p ps IH] using rev_ind.
  - by apply (begin_turn_inv w text c).
  - rewrite foldl_app. simpl. by apply step_twice_turn.
Qed.

End LegacyFacts.

(** ** The variant with one worker and one browser per identifier *)

(** X15. The check of the variant with one browser per identifier posts
    [true] exactly for a page that the Check Protocol of [runMain]
    classifies as available and [false] for one it classifies as
    unavailable; it posts nothing when the page is indeterminate or when
    launching the browser, opening the page or closing the browser
    fails. *)
Theorem X15_legacy_check_follows_the_classification (b : Legacy.Browser) :
  Legacy.workerThread b =
  if Legacy.launches b && Legacy.opens b && Legacy.closes b then
    match classify (Legacy.shows b) with
    | available => Some true
    | unavailable => Some false
    | indeterminate => None
    end
  else None.
Proof.
  unfold Legacy.workerThread. rewrite checkAvailability_run.
  destruct (Legacy.launches b), (Legacy.opens b), (Legacy.closes b),
    (classify (Legacy.shows b)); reflexivity.
Qed.

(** X16. A check closes the browser it has launched only when every step
    before has succeeded: when the launch succeeds and the check fails,
    the browser is launched and never closed. *)
Theorem X16_failed_check_leaves_its_browser_open (b : Legacy.Browser) :
  (Legacy.Close ∈ actions b <-> exists availability, completion b = Ok availability)
  /\ (Legacy.launches b = true -> completion b = Throw ->
      actions b = [Legacy.Launch]).
Proof.
  unfold actions, completion. rewrite checkAvailability_run.
  destruct (Legacy.launches b), (Legacy.opens b), (Legacy.closes b),
    (classify (Legacy.shows b)); simpl; (split; [|done]);
    try (split; [intros _; by eauto|intros _; right; by left]);
    (split; [|by intros [? ?]]); intros Hin;
    repeat (apply elem_of_cons in Hin as [Hin|Hin]; [done|]);
    by apply elem_of_nil in Hin.
Qed.

(** X17. The variant with one worker per identifier never creates the
    record: when available_usernames.txt does not exist or cannot be
    read, every listener fails at its read, and nothing is ever written,
    whatever is available and in whatever order the listeners run. *)
Theorem X17_legacy_run_needs_an_existing_record (w : Legacy.World) :
  (Legacy.available_file w = NoFile
   \/ exists content, Legacy.available_file w = File content false) ->
  Legacy.file (Legacy.run w) = Legacy.available_file w
  /\ Legacy.written (Legacy.run w) = [].
Proof.
  intros Hfile. unfold Legacy.run. destruct (Legacy.source w) as [text|]; [|done].
  apply (foldl_invariant (idle_inv w) (Legacy.step w) (Legacy.schedule w)).
  - intros st p. by apply step_idle_inv.
  - split; [|done]. intros i l Hl. by apply begin_listener_ok in Hl as [_ ?].
Qed.

Lemma X17_legacy_run_witness :
  Legacy.available_file LegacySample.no_record = NoFile
  /\ Legacy.file (Legacy.run LegacySample.no_record) = NoFile
  /\ Legacy.written (Legacy.run LegacySample.no_record) = [].
Proof.
  split; [reflexivity|].
  apply (X17_legacy_run_needs_an_existing_record LegacySample.no_record).
  left. reflexivity.
Defined.

(** X18. In every order of the listeners, the record after the run is its
    text before the run followed by the usernames written, each with its
    line feed; and every username written is the trimmed form of a line of
    the input whose own worker has posted [true], that is, whose page is
    classified as available. *)
Theorem X18_legacy_run_only_appends_available_inputs (w : Legacy.World) :
  text_of (Legacy.file (Legacy.run w)) =
    text_of (Legacy.available_file w)
    ++ concat (map (fun u => u ++ [LF]) (Legacy.written (Legacy.run w)))
  /\ forall u, u ∈ Legacy.written (Legacy.run w) ->
       exists text i,
         Legacy.source w = Some text
         /\ Legacy.workers text !! i = Some u
         /\ classify (Legacy.shows (Legacy.browser_of w i)) = available.
Proof.
  unfold Legacy.run. destruct (Legacy.source w) as [text|] eqn:Hs.
  2:{ simpl. split; [by rewrite app_nil_r|]. by intros u ?%elem_of_nil. }
  destruct (foldl_invariant (legacy_inv w text) (Legacy.step w)
              (Legacy.schedule w) (fun st p => step_legacy_inv w text st p)
              _ (begin_legacy_inv w text)) as (_ & Htext & Hwr).
  split; [done|]. intros u (i & Hi & Hav)%Hwr. exists text, i.
  split; [done|]. split; [done|].
  revert Hav. unfold Legacy.workerThread. rewrite checkAvailability_run.
  generalize (Legacy.browser_of w i) as b. intros b.
  destruct (Legacy.launches b), (Legacy.opens b), (Legacy.closes b),
    (classify (Legacy.shows b)); by simpl.
Qed.

(** X19. When the record is empty or its last line is ended, and the
    listeners run one after the other, each from its message to its end,
    no username is written twice and none is written that was a line of
    the record before the run. *)
Theorem X19_listeners_in_turn_write_nothing_twice
    (w : Legacy.World) (ps : list nat) :
  terminated (Legacy.available_file w) ->
  Legacy.schedule w = one_by_one ps ->
  NoDup (Legacy.written (Legacy.run w))
  /\ forall u, u ∈ Legacy.written (Legacy.run w) ->
       u ∉ lines_of (Legacy.available_file w).
Proof.
  intros Hterm Hsched. unfold Legacy.run.
  destruct (Legacy.source w) as [text|]; simpl.
  2:{ split; [constructor|]. by intros u ?%elem_of_nil. }
  rewrite Hsched, foldl_one_by_one.
  destruct (foldl_invariant (sequential_inv w text)
              (fun st p => Legacy.step w (Legacy.step w st p) p) ps
              (fun st p => step_twice_sequential w text st p)
              _ (begin_sequential_inv w text Hterm))
    as (_ & _ & Hnd & Hwr & _).
  split; [done|]. intros u Hu. by apply Hwr in Hu as [_ ?].
Qed.

Lemma X19_listeners_in_turn_witness :
  terminated (Legacy.available_file LegacySample.in_turn)
  /\ Legacy.schedule LegacySample.in_turn = one_by_one [0; 1]
  /\ Legacy.written (Legacy.run LegacySample.in_turn) = [Sample.carol]
  /\ NoDup (Legacy.written (Legacy.run LegacySample.in_turn)).
Proof.
  assert (H : terminated (Legacy.available_file LegacySample.in_turn))
    by (right; exists Sample.bob; reflexivity).
  split; [exact H|]. split; [reflexivity|]. split; [reflexivity|].
  exact (proj1 (X19_listeners_in_turn_write_nothing_twice
                  LegacySample.in_turn [0; 1] H eq_refl)).
Defined.

(** X20. The comparison with the record does not protect against two
    listeners at once: when two workers check the same available
    username, which is not in the record, and both listeners have read the
    record before either of them appends, the username is written
    twice. *)
Theorem X20_two_listeners_at_once_write_twice
    (w : Legacy.World) (text content u : jstring) (i j : nat) :
  Legacy.source w = Some text ->
  Legacy.workers text !! i = Some u -> Legacy.workers text !! j = Some u ->
  i <> j ->
  Legacy.workerThread (Legacy.browser_of w i) = Some true ->
  Legacy.workerThread (Legacy.browser_of w j) = Some true ->
  Legacy.available_file w = File content true ->
  u ∉ Legacy.split_LF content ->
  Legacy.appends w = true ->
  Legacy.schedule w = [i; j; i; j] ->
  Legacy.written (Legacy.run w) = [u; u]
  /\ text_of (Legacy.file (Legacy.run w)) = content ++ (u ++ [LF]) ++ u ++ [LF].
Proof.
  intros Hs Hi Hj Hij Hwi Hwj Hfile Hnew Happ Hsched.
  unfold Legacy.run. rewrite Hs, Hsched. simpl.
  set (ls := Legacy.listeners (Legacy.begin w text)).
  assert (Hli : ls !! i = Some (Legacy.Posted u true)).
  { unfold ls, Legacy.begin. simpl. rewrite list_lookup_imap, Hi. simpl.
    unfold Legacy.listen. by rewrite Hwi. }
  assert (Hlj : ls !! j = Some (Legacy.Posted u true)).
  { unfold ls, Legacy.begin. simpl. rewrite list_lookup_imap, Hj. simpl.
    unfold Legacy.listen. by rewrite Hwj. }
  pose proof (lookup_lt_Some _ _ _ Hli) as Hilt.
  pose proof (lookup_lt_Some _ _ _ Hlj) as Hjlt.
  set (read := Legacy.HasRead u (Legacy.split_LF content)).
  set (st0 := Legacy.begin w text).
  (* the first listener reads *)
  pose (st1 := {| Legacy.listeners := <[i := read]> ls;
                  Legacy.file := Legacy.file st0;
                  Legacy.written := [] |}).
  assert (E1 : Legacy.step w st0 i = st1)
    by (rewrite (step_read w st0 i u content); [done|done|exact Hfile]).
  (* the second listener reads *)
  pose (st2 := {| Legacy.listeners := <[j := read]> (<[i := read]> ls);
                  Legacy.file := Legacy.file st0;
                  Legacy.written := [] |}).
  assert (E2 : Legacy.step w st1 j = st2).
  { rewrite (step_read w st1 j u content); [done| |exact Hfile].
    simpl. by rewrite list_lookup_insert_ne. }
  (* the first listener appends *)
  pose (st3 := {| Legacy.listeners :=
                    <[i := Legacy.Finished]> (<[j := read]> (<[i := read]> ls));
                  Legacy.file := appendFile (Legacy.file st0) (u ++ [LF]);
                  Legacy.written := [u] |}).
  assert (E3 : Legacy.step w st2 i = st3).
  { rewrite (step_append w st2 i u (Legacy.split_LF content)); [done| |done|done].
    simpl. rewrite list_lookup_insert_ne by done.
    by apply list_lookup_insert_eq. }
  (* the second listener appends, on what it has read before *)
  assert (E4 : Legacy.step w st3 j =
    {| Legacy.listeners := <[j := Legacy.Finished]> (Legacy.listeners st3);
       Legacy.file := appendFile (Legacy.file st3) (u ++ [LF]);
       Legacy.written := [u; u] |}).
  { rewrite (step_append w st3 j u (Legacy.split_LF content)); [done| |done|done].
    simpl. rewrite list_lookup_insert_ne by done.
    apply list_lookup_insert_eq. by rewrite length_insert. }
  rewrite E1, E2, E3, E4. cbn [Legacy.file Legacy.written]. split; [done|].
  unfold st3, st0. simpl. rewrite Hfile. simpl. by rewrite <- app_assoc.
Qed.

Lemma X20_two_listeners_at_once_witness :
  Legacy.schedule LegacySample.interleaved = [0; 1; 0; 1]
  /\ (Sample.carol ∉ Legacy.split_LF (Sample.bob ++ [LF]))
  /\ Legacy.written (Legacy.run LegacySample.interleaved)
     = [Sample.carol; Sample.carol].
Proof.
  assert (H : Sample.carol ∉ Legacy.split_LF (Sample.bob ++ [LF])).
  { intros Hin. vm_compute in Hin.
    repeat (apply elem_of_cons in Hin as [Hin|Hin]; [discriminate|]).
    by apply elem_of_nil in Hin. }
  split; [reflexivity|]. split; [exact H|].
  apply (X20_two_listeners_at_once_write_twice LegacySample.interleaved
           (Sample.carol ++ [LF] ++ Sample.carol ++ [LF]) (Sample.bob ++ [LF])
           Sample.carol 0 1);
    try reflexivity; [discriminate|exact H].
Defined.

(** X23. Over a readable record that is empty or whose last line is
    ended, with appends that succeed and listeners that run one after the
    other, the usernames written are exactly those that were not a line
    of the record and that a worker whose listener has run has found
    available. *)
Theorem X23_listeners_in_turn_write_the_new_available_usernames
    (w : Legacy.World) (text content : jstring) (ps : list nat) :
  Legacy.source w = Some text ->
  Legacy.available_file w = File content true ->
  terminated (Legacy.available_file w) ->
  Legacy.appends w = true ->
  Legacy.schedule w = one_by_one ps ->
  forall x, x ∈ Legacy.written (Legacy.run w) <->
    (x ∉ Legacy.split_LF content) /\
    exists i, i ∈ ps /\ Legacy.workers text !! i = Some x /\
      Legacy.workerThread (Legacy.browser_of w i) = Some true.
Proof.
  intros Hs Hc Hterm Happ Hsched x. unfold Legacy.run.
  rewrite Hs, Hsched, foldl_one_by_one.
  destruct (turns_inv w text content ps Hc Hterm Happ)
    as (_ & _ & _ & _ & Hwr & _).
  rewrite Hwr. unfold lines_of. by rewrite Hc.
Qed.

Lemma X23_listeners_in_turn_witness :
  terminated (Legacy.available_file LegacySample.in_turn)
  /\ (Sample.carol ∈ Legacy.written (Legacy.run LegacySample.in_turn) <->
      (Sample.carol ∉ Legacy.split_LF (Sample.bob ++ [LF])) /\
      exists i, i ∈ [0; 1] /\
        Legacy.workers (Sample.carol ++ [LF] ++ Sample.carol ++ [LF]) !! i
          = Some Sample.carol /\
        Legacy.workerThread (Legacy.browser_of LegacySample.in_turn i)
          = Some true).
Proof.
  assert (H : terminated (Legacy.available_file LegacySample.in_turn))
    by (right; exists Sample.bob; reflexivity).
  split; [exact H|].
  apply (X23_listeners_in_turn_write_the_new_available_usernames
           LegacySample.in_turn
           (Sample.carol ++ [LF] ++ Sample.carol ++ [LF]) (Sample.bob ++ [LF])
           [0; 1]); [reflexivity|reflexivity|exact H|reflexivity|reflexivity].
Defined.
